(** * Tab History Tree Generator: session tracker and tree builder

    A shallow embedding of [background.js] (class [TabHistoryTracker]):
    the per-tab session log, the back/forward detection heuristic, the
    new-navigation truncation, the tree rebuild with its shared mutable
    nodes, and the closed-tab retention set.

    Conventions.
    - The tree nodes are objects that the builder reaches both through
      [currentBranch] and through the [children] of their parent; they
      live in a store (a list of nodes), and a reference is a position
      of the store.  The tree that the builder assigns to
      [tabHistory.tree] is read off the store from the root.
    - JavaScript numbers that the tracker uses as array positions and
      timestamps are integers; they are modelled in [Z].  Lengths of
      arrays are [nat] and are injected with [Z.of_nat] where the source
      mixes them with indices.
    - A [TypeError] (reading a property of [undefined]) is modelled as
      [None] in the option monad.
    - Every [Date.now()] read of one handler invocation is one clock
      reading, passed as the argument [now].
    - The three [Map]s of the tracker are [gmap]s keyed by the tab id. *)

From Stdlib Require Import Ascii String.
From stdpp Require Import base numbers option list strings gmap sorting.

Set Warnings "-register-all".

Open Scope string_scope.
Open Scope list_scope.
Open Scope Z_scope.

(** ** JavaScript values and helpers *)

(** The values that [history.state] can carry, as far as truthiness
    tells them apart. *)
Inductive JsVal :=
  | JsUndefined
  | JsNull
  | JsBool (b : bool)
  | JsNum (z : Z)
  | JsStr (s : string)
  | JsObject (json : string).

Definition truthy (v : JsVal) : bool :=
  match v with
  | JsUndefined | JsNull => false
  | JsBool b => b
  | JsNum z => negb (z =? 0)
  | JsStr s => negb (String.eqb s "")
  | JsObject _ => true
  end.

(** [v || null] *)
Definition or_null (v : JsVal) : JsVal := if truthy v then v else JsNull.

(** [b || false] and the truthiness of an optional boolean property. *)
Definition truthy_bool (b : option bool) : bool := default false b.

(** [n || d] on an optional number. *)
Definition num_or (n : option Z) (d : Z) : Z :=
  match n with
  | Some z => if z =? 0 then d else z
  | None => d
  end.

(** Truthiness of an optional string: [undefined] and [""] are falsy. *)
Definition truthy_str (s : option string) : bool :=
  match s with
  | Some t => negb (String.eqb t "")
  | None => false
  end.

(** [arr[i]] for an integer [i]: [undefined] (here [None]) out of range. *)
Definition index {A} (arr : list A) (i : Z) : option A :=
  if i <? 0 then None else arr !! Z.to_nat i.

(** [arr.slice(0, e)]: a negative [e] counts from the end. *)
Definition slice0 {A} (arr : list A) (e : Z) : list A :=
  let len := Z.of_nat (List.length arr) in
  let k := if e <? 0 then Z.max (len + e) 0 else Z.min e len in
  take (Z.to_nat k) arr.

(** [arr.findIndex(p)], with [None] for [-1]. *)
Fixpoint findIndex {A} (p : A → bool) (arr : list A) : option nat :=
  match arr with
  | [] => None
  | x :: rest => if p x then Some 0%nat else S <$> findIndex p rest
  end.

(** [s.startsWith(p)] *)
Definition startsWith (s p : string) : bool := String.prefix p s.

(** ** The host platform

    [new URL(url).hostname] is the browser's; it is a parameter of the
    development.  [None] stands for the [TypeError] that the [URL]
    constructor throws on a string it cannot parse. *)
Class Platform := { URL_hostname : string → option string }.

(** ** Data model *)

(** What the content script reports ([getTabHistoryInfo]); a property
    that is absent from the object reads as [None]. *)
Record HistoryInfo := mkHistoryInfo {
  hi_historyLength : option Z;
  hi_canGoBack : option bool;
  hi_canGoForward : option bool;
  hi_currentState : JsVal }.

(** The default argument [historyInfo = {}]. *)
Definition emptyInfo : HistoryInfo :=
  {| hi_historyLength := None; hi_canGoBack := None;
     hi_canGoForward := None; hi_currentState := JsUndefined |}.

(** The fallback of [getTabHistoryInfo] when the probe fails. *)
Definition defaultInfo : HistoryInfo :=
  {| hi_historyLength := Some 1; hi_canGoBack := Some false;
     hi_canGoForward := Some false; hi_currentState := JsNull |}.

Record HistoryEntry := mkHistoryEntry {
  url : string;
  title : string;
  timestamp : Z;
  type : string;
  historyLength : Z;
  canGoBack : bool;
  canGoForward : bool;
  state : JsVal }.

(** A tree node as the rebuilt tree holds it. *)
Inductive TreeNode :=
  treeNode (entry : HistoryEntry) (children : list TreeNode)
           (level : nat) (isCurrent : bool).

Definition node_entry (t : TreeNode) : HistoryEntry :=
  let 'treeNode e _ _ _ := t in e.
Definition node_children (t : TreeNode) : list TreeNode :=
  let 'treeNode _ cs _ _ := t in cs.
Definition node_level (t : TreeNode) : nat :=
  let 'treeNode _ _ l _ := t in l.
Definition node_isCurrent (t : TreeNode) : bool :=
  let 'treeNode _ _ _ c := t in c.

(** A tree node while the builder works on it: an object in a store,
    whose [children] are references (store addresses).  The builder
    keeps the same objects in [currentBranch] and in the tree, and writes
    to them through either. *)
Record Node := mkNode {
  entry : HistoryEntry;
  children : list nat;
  level : nat;
  isCurrent : bool }.

Record TabHistory := mkTabHistory {
  sessionHistory : list HistoryEntry;
  currentIndex : Z;
  tree : TreeNode;
  lastUpdated : Z;
  isClosed : bool;
  closedAt : option Z }.

Record Tracker := mkTracker {
  tabHistories : gmap Z TabHistory;
  tabCreationTimes : gmap Z Z;
  closedTabHistories : gmap Z TabHistory }.

(** Field assignments. *)
Definition set_sessionHistory (v : list HistoryEntry) (th : TabHistory) :=
  mkTabHistory v (currentIndex th) (tree th) (lastUpdated th)
               (isClosed th) (closedAt th).
Definition set_currentIndex (v : Z) (th : TabHistory) :=
  mkTabHistory (sessionHistory th) v (tree th) (lastUpdated th)
               (isClosed th) (closedAt th).
Definition set_tree (v : TreeNode) (th : TabHistory) :=
  mkTabHistory (sessionHistory th) (currentIndex th) v (lastUpdated th)
               (isClosed th) (closedAt th).
Definition set_lastUpdated (v : Z) (th : TabHistory) :=
  mkTabHistory (sessionHistory th) (currentIndex th) (tree th) v
               (isClosed th) (closedAt th).
Definition set_tabHistories (v : gmap Z TabHistory) (tr : Tracker) :=
  mkTracker v (tabCreationTimes tr) (closedTabHistories tr).
Definition set_tabCreationTimes (v : gmap Z Z) (tr : Tracker) :=
  mkTracker (tabHistories tr) v (closedTabHistories tr).
Definition set_closedTabHistories (v : gmap Z TabHistory) (tr : Tracker) :=
  mkTracker (tabHistories tr) (tabCreationTimes tr) v.

(** The tracker after [constructor()], before any event. *)
Definition emptyTracker : Tracker := mkTracker ∅ ∅ ∅.

(** ** Tree builder *)

(** [createTreeNode(entry, level, isCurrent)] *)
Definition createTreeNode (e : HistoryEntry) (lvl : nat) (cur : bool) : Node :=
  {| entry := e; children := []; level := lvl; isCurrent := cur |}.

Definition set_isCurrent (v : bool) (n : Node) : Node :=
  mkNode (entry n) (children n) (level n) v.

(** [parentNode.children.push(newNode)] *)
Definition push_child (c : nat) (n : Node) : Node :=
  mkNode (entry n) (children n ++ [c]) (level n) (isCurrent n).

(** [node.entry.url === entry.url] through the reference [a]; the
    references of [currentBranch] are never dangling. *)
Definition url_matches (store : list Node) (e : HistoryEntry) (a : nat) : bool :=
  match store !! a with
  | Some node => String.eqb (url (entry node)) (url e)
  | None => false
  end.

(** [currentBranch.forEach((node, idx) =>
       node.isCurrent = (idx === existingIndex && isCurrent))],
    from position [idx] on. *)
Fixpoint forEach_flags (store : list Node) (currentBranch : list nat)
    (idx existingIndex : nat) (isCur : bool) : list Node :=
  match currentBranch with
  | [] => store
  | a :: rest =>
      forEach_flags
        (alter (set_isCurrent (bool_decide (idx = existingIndex) && isCur)) a store)
        rest (S idx) existingIndex isCur
  end.

(** The body of the [for] loop of [buildTreeFromSessionHistory], for the
    entries from position [i] on.  The state is the store of the nodes
    created so far and [currentBranch], a list of references into it. *)
Fixpoint buildLoop (curIdx : Z) (i : nat) (entries : list HistoryEntry)
    (store : list Node) (currentBranch : list nat) : option (list Node) :=
  match entries with
  | [] => Some store
  | e :: rest =>
      let isCur := bool_decide (Z.of_nat i = curIdx) in
      match findIndex (url_matches store e) currentBranch with
      | Some existingIndex =>
          let currentBranch' := slice0 currentBranch (Z.of_nat existingIndex + 1) in
          buildLoop curIdx (S i) rest
            (forEach_flags store currentBranch' 0 existingIndex isCur)
            currentBranch'
      | None =>
          parentNode ← last currentBranch;
          let newNode := List.length store in
          let store' := store ++ [createTreeNode e (List.length currentBranch) isCur] in
          buildLoop curIdx (S i) rest
            (alter (push_child newNode) parentNode store')
            (currentBranch ++ [newNode])
      end
  end.

(** Reading the linked structure off the store, from the node at [a].
    The fuel bounds the depth of the walk; the size of the store is
    always enough ([reify_total]). *)
Fixpoint reify (fuel : nat) (store : list Node) (a : nat) : option TreeNode :=
  match fuel with
  | O => None
  | S fuel' =>
      n ← store !! a;
      cs ← mapM (reify fuel' store) (children n);
      Some (treeNode (entry n) cs (level n) (isCurrent n))
  end.

(** The tree that [buildTreeFromSessionHistory] assigns to
    [tabHistory.tree], for a session history [rootEntry :: rest]. *)
Definition buildTree (rootEntry : HistoryEntry) (rest : list HistoryEntry)
    (curIdx : Z) : option TreeNode :=
  let root := createTreeNode rootEntry 0 (bool_decide (curIdx = 0)) in
  store ← buildLoop curIdx 1 rest [root] [0%nat];
  reify (List.length store) store 0.

(** [buildTreeFromSessionHistory(tabId)] *)
Definition buildTreeFromSessionHistory (tr : Tracker) (tabId : Z)
    : option Tracker :=
  match tabHistories tr !! tabId with
  | None => Some tr
  | Some tabHistory =>
      match sessionHistory tabHistory with
      | [] => Some tr
      | rootEntry :: rest =>
          root ← buildTree rootEntry rest (currentIndex tabHistory);
          Some (set_tabHistories
                  (<[tabId := set_tree root tabHistory]> (tabHistories tr)) tr)
      end
  end.

Section Tracker.
Context `{Platform}.

(** ** Entries *)

(** [getDomainFromUrl(url)]: the [catch] branch returns the url. *)
Definition getDomainFromUrl (u : string) : string :=
  match URL_hostname u with
  | Some hostname => hostname
  | None => u
  end.

(** [createHistoryEntry(url, title, type, timestamp, historyInfo)]; an
    absent [title] is [None], and [now] is the clock for a falsy
    [timestamp]. *)
Definition createHistoryEntry (u : string) (ttl : option string)
    (ty : string) (ts : Z) (historyInfo : HistoryInfo) (now : Z)
    : HistoryEntry :=
  {| url := u;
     title := match ttl with
              | Some t => if truthy_str ttl then t else getDomainFromUrl u
              | None => getDomainFromUrl u
              end;
     timestamp := if ts =? 0 then now else ts;
     type := ty;
     historyLength := num_or (hi_historyLength historyInfo) 1;
     canGoBack := truthy_bool (hi_canGoBack historyInfo);
     canGoForward := truthy_bool (hi_canGoForward historyInfo);
     state := or_null (hi_currentState historyInfo) |}.

(** ** Session tracker *)

(** [isValidUrl(url)]; an absent [tab.url] is [None]. *)
Definition isValidUrl (u : option string) : bool :=
  match u with
  | Some s =>
      negb (String.eqb s "") && (startsWith s "http:" || startsWith s "https:")
  | None => false
  end.

(** [handleTabCreated(tab)] *)
Definition handleTabCreated (tr : Tracker) (tabId : Z) (now : Z) : Tracker :=
  set_tabCreationTimes (<[tabId := now]> (tabCreationTimes tr)) tr.

(** [this.tabCreationTimes.get(tabId) || Date.now()] *)
Definition creationTimeOf (tr : Tracker) (tabId : Z) (now : Z) : Z :=
  num_or (tabCreationTimes tr !! tabId) now.

(** The record that [initializeTabHistory] and [updateTabHistory] create
    for a tab they see for the first time. *)
Definition newTabHistory (tr : Tracker) (tabId : Z) (u : string)
    (ttl : option string) (now : Z) : TabHistory :=
  let creationTime := creationTimeOf tr tabId now in
  let initialEntry :=
    createHistoryEntry u ttl "initial" creationTime emptyInfo now in
  {| sessionHistory := [initialEntry];
     currentIndex := 0;
     tree := treeNode initialEntry [] 0 true;
     lastUpdated := now;
     isClosed := false;
     closedAt := None |}.

(** [initializeTabHistory(tabId, url, title)] *)
Definition initializeTabHistory (tr : Tracker) (tabId : Z) (u : string)
    (ttl : option string) (now : Z) : Tracker :=
  match tabHistories tr !! tabId with
  | Some _ => tr
  | None =>
      set_tabHistories
        (<[tabId := newTabHistory tr tabId u ttl now]> (tabHistories tr)) tr
  end.

(** [detectBackNavigation(tabId, newUrl, historyInfo)] *)
Definition detectBackNavigation (tr : Tracker) (tabId : Z) (newUrl : string)
    (historyInfo : HistoryInfo) : option bool :=
  match tabHistories tr !! tabId with
  | None => Some false
  | Some tabHistory =>
      if Z.of_nat (List.length (sessionHistory tabHistory)) <? 2 then Some false
      else
        let currentIndex := currentIndex tabHistory in
        if 0 <? currentIndex then
          previousEntry ← index (sessionHistory tabHistory) (currentIndex - 1);
          let isBack := String.eqb (url previousEntry) newUrl
                        && truthy_bool (hi_canGoBack historyInfo) in
          if isBack then
            (* the log line reads [sessionHistory[currentIndex].url] *)
            _ ← index (sessionHistory tabHistory) currentIndex; Some true
          else Some false
        else Some false
  end.

(** [detectForwardNavigation(tabId, newUrl, historyInfo)] *)
Definition detectForwardNavigation (tr : Tracker) (tabId : Z) (newUrl : string)
    (historyInfo : HistoryInfo) : option bool :=
  match tabHistories tr !! tabId with
  | None => Some false
  | Some tabHistory =>
      let len := Z.of_nat (List.length (sessionHistory tabHistory)) in
      if len - 1 <=? currentIndex tabHistory then Some false
      else
        let currentIndex := currentIndex tabHistory in
        if currentIndex <? len - 1 then
          nextEntry ← index (sessionHistory tabHistory) (currentIndex + 1);
          let isForward := String.eqb (url nextEntry) newUrl
                           && truthy_bool (hi_canGoForward historyInfo) in
          if isForward then
            (* the log line reads [sessionHistory[currentIndex].url] *)
            _ ← index (sessionHistory tabHistory) currentIndex; Some true
          else Some false
        else Some false
  end.

(** [handleBackNavigation(tabId, url, title)] *)
Definition handleBackNavigation (tr : Tracker) (tabId : Z) : Tracker :=
  match tabHistories tr !! tabId with
  | None => tr
  | Some tabHistory =>
      let tabHistory' :=
        set_currentIndex (Z.max 0 (currentIndex tabHistory - 1)) tabHistory in
      set_tabHistories (<[tabId := tabHistory']> (tabHistories tr)) tr
  end.

(** [handleForwardNavigation(tabId, url, title)] *)
Definition handleForwardNavigation (tr : Tracker) (tabId : Z) : Tracker :=
  match tabHistories tr !! tabId with
  | None => tr
  | Some tabHistory =>
      let tabHistory' :=
        set_currentIndex
          (Z.min (Z.of_nat (List.length (sessionHistory tabHistory)) - 1)
                 (currentIndex tabHistory + 1)) tabHistory in
      set_tabHistories (<[tabId := tabHistory']> (tabHistories tr)) tr
  end.

(** [handleNewNavigation(tabId, url, title, type, historyInfo)] *)
Definition handleNewNavigation (tr : Tracker) (tabId : Z) (u : string)
    (ttl : option string) (ty : string) (historyInfo : HistoryInfo) (now : Z)
    : Tracker :=
  match tabHistories tr !! tabId with
  | None => tr
  | Some tabHistory =>
      let currentEntry :=
        index (sessionHistory tabHistory) (currentIndex tabHistory) in
      let sameUrl :=
        match currentEntry with
        | Some e => String.eqb (url e) u
        | None => false
        end in
      if sameUrl then tr
      else
        let len := Z.of_nat (List.length (sessionHistory tabHistory)) in
        let kept :=
          if currentIndex tabHistory <? len - 1
          then slice0 (sessionHistory tabHistory) (currentIndex tabHistory + 1)
          else sessionHistory tabHistory in
        let newEntry := createHistoryEntry u ttl ty now historyInfo now in
        let pushed := kept ++ [newEntry] in
        let tabHistory' :=
          set_currentIndex (Z.of_nat (List.length pushed) - 1)
            (set_sessionHistory pushed tabHistory) in
        set_tabHistories (<[tabId := tabHistory']> (tabHistories tr)) tr
  end.

(** [updateTabHistory(tabId, url, title, type, historyInfo)] *)
Definition updateTabHistory (tr : Tracker) (tabId : Z) (u : string)
    (ttl : option string) (ty : string) (historyInfo : HistoryInfo) (now : Z)
    : option Tracker :=
  let tr1 :=
    match tabHistories tr !! tabId with
    | Some _ => tr
    | None =>
        set_tabHistories
          (<[tabId := newTabHistory tr tabId u ttl now]> (tabHistories tr)) tr
    end in
  isBackNavigation ← detectBackNavigation tr1 tabId u historyInfo;
  isForwardNavigation ← detectForwardNavigation tr1 tabId u historyInfo;
  let tr2 :=
    if (isBackNavigation : bool) then handleBackNavigation tr1 tabId
    else if (isForwardNavigation : bool) then handleForwardNavigation tr1 tabId
    else handleNewNavigation tr1 tabId u ttl ty historyInfo now in
  let tr3 :=
    set_tabHistories (alter (set_lastUpdated now) tabId (tabHistories tr2)) tr2 in
  buildTreeFromSessionHistory tr3 tabId.

(** [handleTabUpdate(tabId, changeInfo, tab)]; [historyInfo] is what the
    probe [getTabHistoryInfo(tabId)] returned. *)
Definition handleTabUpdate (tr : Tracker) (tabId : Z) (statusComplete : bool)
    (tabUrl ttl : option string) (historyInfo : HistoryInfo) (now : Z)
    : option Tracker :=
  match tabUrl with
  | Some u =>
      if statusComplete && isValidUrl tabUrl
      then updateTabHistory tr tabId u ttl "navigation" historyInfo now
      else Some tr
  | None => Some tr
  end.

(** [handleTabActivation(activeInfo)] *)
Definition handleTabActivation (tr : Tracker) (tabId : Z)
    (tabUrl ttl : option string) (historyInfo : HistoryInfo) (now : Z)
    : option Tracker :=
  match tabUrl with
  | Some u =>
      if isValidUrl tabUrl
      then updateTabHistory tr tabId u ttl "activation" historyInfo now
      else Some tr
  | None => Some tr
  end.

(** [handleTabClose(tabId)]: the closed record is
    [{...tabHistory, closedAt: Date.now(), isClosed: true}]. *)
Definition handleTabClose (tr : Tracker) (tabId : Z) (now : Z) : Tracker :=
  match tabHistories tr !! tabId with
  | Some tabHistory =>
      let closed :=
        mkTabHistory (sessionHistory tabHistory) (currentIndex tabHistory)
                     (tree tabHistory) (lastUpdated tabHistory)
                     true (Some now) in
      mkTracker (delete tabId (tabHistories tr))
                (delete tabId (tabCreationTimes tr))
                (<[tabId := closed]> (closedTabHistories tr))
  | None => tr
  end.

(** The effect of [handleMessage(request, ...)] on the tracker; the
    response it sends is not part of the state.  A falsy [request.tabId]
    (absent, or [0]) skips the rebuild of ['refreshTabHistory']. *)
Definition handleMessage (tr : Tracker) (action : string)
    (tabId : option Z) : option Tracker :=
  if String.eqb action "clearHistory" then Some emptyTracker
  else if String.eqb action "clearClosedTabs" then
    Some (set_closedTabHistories ∅ tr)
  else if String.eqb action "refreshTabHistory" then
    match tabId with
    | Some t => if t =? 0 then Some tr else buildTreeFromSessionHistory tr t
    | None => Some tr
    end
  else Some tr.

End Tracker.

(** ** The earlier variant of the tracker

    [src/unnamed/part_000] is the same tracker before closed tabs were
    kept: it has no [closedTabHistories], and its [handleTabClose]
    forgets the tab. *)
Module Variant.

Definition handleTabClose (tr : Tracker) (tabId : Z) : Tracker :=
  mkTracker (delete tabId (tabHistories tr))
            (delete tabId (tabCreationTimes tr))
            (closedTabHistories tr).

End Variant.

(** ** A platform for the examples

    A model of [new URL(u).hostname] on the strings that [isValidUrl]
    lets through: the scheme is [http:] or [https:]; the slashes after
    it are skipped; the authority ends at the first [/], [\], [?] or
    [#]; credentials end at its last [@]; the host ends at the first
    [:], and what follows must be a decimal port; an empty host is a
    parse failure; the host is put in lower case.  It covers hosts made
    of ASCII letters, digits, [-] and [.] whose last label is not a
    number (no percent-decoding, IDNA, IPv4 or IPv6 forms). *)
Module UrlModel.

Definition is_one_of (cs : list ascii) (c : ascii) : bool :=
  existsb (Ascii.eqb c) cs.

Fixpoint skip_slashes (s : list ascii) : list ascii :=
  match s with
  | c :: rest =>
      if is_one_of ["/"; "\"]%char c then skip_slashes rest else s
  | [] => []
  end.

Fixpoint until (stop : ascii → bool) (s : list ascii) : list ascii :=
  match s with
  | c :: rest => if stop c then [] else c :: until stop rest
  | [] => []
  end.

Definition after_last_at (s : list ascii) : list ascii :=
  fold_left (λ acc c, if Ascii.eqb c "@" then [] else acc ++ [c]) s [].

Definition is_digit (c : ascii) : bool :=
  let n := nat_of_ascii c in (48 <=? n)%nat && (n <=? 57)%nat.

Definition lower (c : ascii) : ascii :=
  let n := nat_of_ascii c in
  if (65 <=? n)%nat && (n <=? 90)%nat then ascii_of_nat (n + 32) else c.

Definition after_scheme (u : string) : option (list ascii) :=
  if startsWith u "http:" then Some (drop 5 (list_ascii_of_string u))
  else if startsWith u "https:" then Some (drop 6 (list_ascii_of_string u))
  else None.

Definition hostname (u : string) : option string :=
  rest ← after_scheme u;
  let authority := until (is_one_of ["/"; "\"; "?"; "#"]%char) (skip_slashes rest) in
  let hostport := after_last_at authority in
  let host := until (Ascii.eqb ":") hostport in
  let port := drop (S (List.length host)) hostport in
  match host with
  | [] => None
  | _ => if forallb is_digit port
         then Some (string_of_list_ascii (map lower host))
         else None
  end.

End UrlModel.

Definition browser : Platform := {| URL_hostname := UrlModel.hostname |}.

(** ** The store of the builder

    What a node keeps for life: only [isCurrent] is ever reassigned. *)
Definition shape (n : Node) : HistoryEntry * list nat * nat :=
  (entry n, children n, level n).

(** The invariant of the loop: [currentBranch] starts at the root, its
    node at position [k] has level [k]; children are younger than their
    parent and one level below it. *)
Record build_inv (store : list Node) (branch : list nat) : Prop := {
  inv_root : branch !! 0%nat = Some 0%nat;
  inv_children : ∀ a n c,
    store !! a = Some n → c ∈ children n → (a < c < List.length store)%nat;
  inv_branch : ∀ k a,
    branch !! k = Some a → ∃ n, store !! a = Some n ∧ level n = k;
  inv_levels : ∀ a n c m,
    store !! a = Some n → c ∈ children n → store !! c = Some m →
    level m = S (level n) }.

(** What is left of it once the loop is over. *)
Record store_inv (store : list Node) : Prop := {
  sinv_root : ∃ n, store !! 0%nat = Some n ∧ level n = 0%nat;
  sinv_children : ∀ a n c,
    store !! a = Some n → c ∈ children n → (a < c < List.length store)%nat;
  sinv_levels : ∀ a n c m,
    store !! a = Some n → c ∈ children n → store !! c = Some m →
    level m = S (level n) }.

(** The addresses of the nodes linked below [a], parents before
    children, in the order in which a walk of the tree meets them. *)
Fixpoint preorder (fuel : nat) (store : list Node) (a : nat)
    : option (list nat) :=
  match fuel with
  | O => None
  | S fuel' =>
      cs ← children <$> store !! a;
      ls ← mapM (preorder fuel' store) cs;
      Some (a :: mjoin ls)
  end.

(** [path] goes down from [a], each time to the youngest child. *)
Fixpoint rightmost (store : list Node) (a : nat) (path : list nat) : Prop :=
  match path with
  | [] => True
  | b :: rest =>
      (∃ n, store !! a = Some n ∧ last (children n) = Some b)
      ∧ rightmost store b rest
  end.

(** The walk of the tree meets the nodes in the order of their
    creation, and [currentBranch] is the start of the path of youngest
    children. *)
Record order_inv (store : list Node) (branch : list nat) : Prop := {
  oinv_walk : ∃ fuel,
    preorder fuel store 0 = Some (seq 0 (List.length store));
  oinv_rightmost : ∃ path, branch = 0%nat :: path ∧ rightmost store 0 path }.

(** The tree node [x] is the picture of the store node [n]. *)
Definition describes (x : TreeNode) (n : Node) : Prop :=
  node_entry x = entry n ∧ node_level x = level n
  ∧ node_isCurrent x = isCurrent n.

(** The markers of the store while the loop is about to read entry [i]:
    at most one node is marked, and none before the loop has read the
    entry at [curIdx]. *)
Definition flags_inv (curIdx : Z) (i : nat) (store : list Node) : Prop :=
  (∀ a1 a2 n1 n2,
     store !! a1 = Some n1 → store !! a2 = Some n2 →
     isCurrent n1 = true → isCurrent n2 = true → a1 = a2)
  ∧ (∀ a n, store !! a = Some n → isCurrent n = true → curIdx < Z.of_nat i).

(** ** Observations on trees and logs *)

(** [occurs_at t d x]: the node [x] sits [d] links below the root of [t]. *)
Inductive occurs_at : TreeNode → nat → TreeNode → Prop :=
  | occurs_here t : occurs_at t 0 t
  | occurs_below t c d x :
      c ∈ node_children t → occurs_at c d x → occurs_at t (S d) x.

(** All nodes of a tree, parents before children. *)
Fixpoint nodes (t : TreeNode) : list TreeNode :=
  match t with
  | treeNode _ cs _ _ => t :: mjoin (nodes <$> cs)
  end.

(** The nodes that carry the current marker. *)
Definition currentNodes (t : TreeNode) : list TreeNode :=
  filter (λ x, node_isCurrent x = true) (nodes t).

(** [0 <= currentIndex < len(entries)] *)
Definition valid_index (tabHistory : TabHistory) : Prop :=
  0 ≤ currentIndex tabHistory
    < Z.of_nat (List.length (sessionHistory tabHistory)).

(** No two neighbours of a log have the same url. *)
Definition no_adjacent_dup (entries : list HistoryEntry) : Prop :=
  ∀ k a b, entries !! k = Some a → entries !! S k = Some b → url a ≠ url b.

(** The same, as a check that runs. *)
Fixpoint adjacent_distinct (entries : list HistoryEntry) : bool :=
  match entries with
  | a :: (b :: _) as rest =>
      negb (String.eqb (url a) (url b)) && adjacent_distinct rest
  | _ => true
  end.

(** The url of [entries[i]] is [u]; false where there is no such entry. *)
Definition url_at (entries : list HistoryEntry) (i : Z) (u : string) : bool :=
  match index entries i with
  | Some e => String.eqb (url e) u
  | None => false
  end.

(** The classification of an update as the specification words it. *)
Definition spec_Refresh (tabHistory : TabHistory) (u : string) : bool :=
  url_at (sessionHistory tabHistory) (currentIndex tabHistory) u.

Definition spec_Back (tabHistory : TabHistory) (u : string)
    (historyInfo : HistoryInfo) : bool :=
  (0 <? currentIndex tabHistory)
  && url_at (sessionHistory tabHistory) (currentIndex tabHistory - 1) u
  && truthy_bool (hi_canGoBack historyInfo).

Definition spec_Forward (tabHistory : TabHistory) (u : string)
    (historyInfo : HistoryInfo) : bool :=
  (currentIndex tabHistory
     <? Z.of_nat (List.length (sessionHistory tabHistory)) - 1)
  && url_at (sessionHistory tabHistory) (currentIndex tabHistory + 1) u
  && truthy_bool (hi_canGoForward historyInfo).

(** The tree that a rebuild assigns for the log of [tabHistory]; a
    rebuild of an empty log assigns none. *)
Definition rebuiltTree (tabHistory : TabHistory) : option TreeNode :=
  match sessionHistory tabHistory with
  | [] => None
  | rootEntry :: rest => buildTree rootEntry rest (currentIndex tabHistory)
  end.

(** Well-formed logs: the index is valid and neighbours differ. *)
Definition log_inv (tabHistory : TabHistory) : Prop :=
  valid_index tabHistory ∧ no_adjacent_dup (sessionHistory tabHistory).

Definition tracker_inv (tr : Tracker) : Prop :=
  (∀ tabId th, tabHistories tr !! tabId = Some th → log_inv th) ∧
  (∀ tabId th, closedTabHistories tr !! tabId = Some th → log_inv th).

Section Runs.
Context `{Platform}.

(** The log of a tracked tab after one update, in the order in which
    [updateTabHistory] tries the cases: back, forward, and inside
    [handleNewNavigation] refresh, then new navigation. *)
Definition logAfterUpdate (tabHistory : TabHistory) (u : string)
    (ttl : option string) (ty : string) (historyInfo : HistoryInfo) (now : Z)
    : TabHistory :=
  if spec_Back tabHistory u historyInfo then
    set_currentIndex (currentIndex tabHistory - 1) tabHistory
  else if spec_Forward tabHistory u historyInfo then
    set_currentIndex (currentIndex tabHistory + 1) tabHistory
  else if spec_Refresh tabHistory u then tabHistory
  else
    let pushed :=
      take (S (Z.to_nat (currentIndex tabHistory))) (sessionHistory tabHistory)
      ++ [createHistoryEntry u ttl ty now historyInfo now] in
    set_currentIndex (Z.of_nat (List.length pushed) - 1)
      (set_sessionHistory pushed tabHistory).

(** The events that reach the tracker, with what the host supplies for
    each.  [ExistingTab] is one turn of the loop of
    [initializeExistingTabs]. *)
Inductive Event :=
  | TabCreated (tabId now : Z)
  | ExistingTab (tabId : Z) (tabUrl ttl : option string) (now : Z)
  | TabUpdated (tabId : Z) (statusComplete : bool) (tabUrl ttl : option string)
               (historyInfo : HistoryInfo) (now : Z)
  | TabActivated (tabId : Z) (tabUrl ttl : option string)
                 (historyInfo : HistoryInfo) (now : Z)
  | TabClosed (tabId now : Z)
  | Message (action : string) (tabId : option Z).

Definition handle (tr : Tracker) (ev : Event) : option Tracker :=
  match ev with
  | TabCreated tabId now => Some (handleTabCreated tr tabId now)
  | ExistingTab tabId tabUrl ttl now =>
      let tr0 :=
        if decide (is_Some (tabCreationTimes tr !! tabId)) then tr
        else handleTabCreated tr tabId now in
      match tabUrl with
      | Some u =>
          Some (if isValidUrl tabUrl
                then initializeTabHistory tr0 tabId u ttl now else tr0)
      | None => Some tr0
      end
  | TabUpdated tabId statusComplete tabUrl ttl historyInfo now =>
      handleTabUpdate tr tabId statusComplete tabUrl ttl historyInfo now
  | TabActivated tabId tabUrl ttl historyInfo now =>
      handleTabActivation tr tabId tabUrl ttl historyInfo now
  | TabClosed tabId now => Some (handleTabClose tr tabId now)
  | Message action tabId => handleMessage tr action tabId
  end.

(** The trackers that a run of events leads to from the empty one. *)
Inductive reachable : Tracker → Prop :=
  | reachable_start : reachable emptyTracker
  | reachable_step tr ev tr' :
      reachable tr → handle tr ev = Some tr' → reachable tr'.

(** A run of updates of one tab. *)
Record Update := mkUpdate {
  up_url : string;
  up_title : option string;
  up_type : string;
  up_info : HistoryInfo;
  up_now : Z }.

Fixpoint updates (tr : Tracker) (tabId : Z) (ups : list Update)
    : option Tracker :=
  match ups with
  | [] => Some tr
  | up :: rest =>
      tr' ← updateTabHistory tr tabId (up_url up) (up_title up) (up_type up)
              (up_info up) (up_now up);
      updates tr' tabId rest
  end.

End Runs.

(** The same update with the cases tried in the order of the
    specification: refresh first, then back, forward, new navigation. *)
Definition spec_logAfterUpdate `{Platform} (tabHistory : TabHistory)
    (u : string) (ttl : option string) (ty : string)
    (historyInfo : HistoryInfo) (now : Z) : TabHistory :=
  if spec_Refresh tabHistory u then tabHistory
  else if spec_Back tabHistory u historyInfo then
    set_currentIndex (currentIndex tabHistory - 1) tabHistory
  else if spec_Forward tabHistory u historyInfo then
    set_currentIndex (currentIndex tabHistory + 1) tabHistory
  else
    let pushed :=
      take (S (Z.to_nat (currentIndex tabHistory))) (sessionHistory tabHistory)
      ++ [createHistoryEntry u ttl ty now historyInfo now] in
    set_currentIndex (Z.of_nat (List.length pushed) - 1)
      (set_sessionHistory pushed tabHistory).

(** ** Sample pages, logs and runs *)

Module Sample.
Section Sample.
Local Existing Instance browser.

Definition urlA := "https://a.example/".
Definition urlB := "https://b.example/page".
Definition urlC := "https://c.example/".
Definition urlD := "https://d.example/".

(** What the content script reports on a page with history behind it. *)
Definition info : HistoryInfo :=
  mkHistoryInfo (Some 3) (Some true) (Some true) JsNull.

Definition A := createHistoryEntry urlA (Some "A") "initial" 10 emptyInfo 10.
Definition B := createHistoryEntry urlB (Some "B") "navigation" 20 info 20.
Definition C := createHistoryEntry urlC (Some "C") "navigation" 30 info 30.
Definition D := createHistoryEntry urlD None "navigation" 40 info 40.
(** A second visit of the page of [A]. *)
Definition A' := createHistoryEntry urlA (Some "A") "navigation" 15 info 15.

Definition tab : Z := 7.

(** A tracker whose only tab has the log [entries] at [curIdx]; its tree
    is the initial one until a rebuild replaces it. *)
Definition record (entries : list HistoryEntry) (curIdx : Z) : TabHistory :=
  mkTabHistory entries curIdx (treeNode A [] 0 true) 50 false None.

Definition tracking (entries : list HistoryEntry) (curIdx : Z) : Tracker :=
  mkTracker {[ tab := record entries curIdx ]} {[ tab := 10 ]} ∅.

(** An update as [handleTabUpdate] passes it on, with the report of the
    content script for a joint session history of [len] pages. *)
Definition visit (u : string) (now len : Z) : Update :=
  mkUpdate u (Some "page") "navigation"
    (mkHistoryInfo (Some len) (Some (1 <? len)) (Some (1 <? len)) JsNull) now.

(** A to B to C, a link back to A, then the back button three times. *)
Definition run_back_to_start : list Update :=
  [ visit urlA 10 1; visit urlB 20 2; visit urlC 30 3; visit urlA 40 4;
    visit urlC 50 4; visit urlB 60 4; visit urlA 70 4 ].

(** What a test would look at in the tab's record: the urls of the log,
    the index, and the urls of the nodes marked current. *)
Definition observe (tr : option Tracker)
    : option (list string * Z * list string) :=
  tr ← tr;
  th ← tabHistories tr !! tab;
  Some (url <$> sessionHistory th, currentIndex th,
        (url ∘ node_entry) <$> currentNodes (tree th)).

End Sample.
End Sample.

(** ** Queries, storage and popup

    The rest of [background.js] (the answers of [handleMessage], the
    snapshot in [chrome.storage.local]) and the counting and clipping
    helpers of [popup.js]. *)

(** One element of the answer of [getAllTabTrees]. *)
Record TreeData := mkTreeData {
  td_tabId : Z;
  td_tree : TreeNode;
  td_sessionHistory : list HistoryEntry;
  td_currentIndex : Z;
  td_lastUpdated : Z;
  td_creationTime : Z;
  td_isClosed : bool;
  td_closedAt : option Z;
  td_isActive : bool }.

(** [arr.sort(cmp)] as the stable sort that the language prescribes: an
    element goes behind the elements that [cmp] puts before it or beside
    it.  [cmp x y > 0] says that [x] sorts after [y]. *)
Fixpoint sort_insert {A} (cmp : A → A → Z) (x : A) (sorted : list A) : list A :=
  match sorted with
  | [] => [x]
  | y :: rest =>
      if 0 <? cmp x y then y :: sort_insert cmp x rest else x :: sorted
  end.

Definition sort {A} (cmp : A → A → Z) (arr : list A) : list A :=
  foldr (sort_insert cmp) [] arr.

(** The element that [getAllTabTrees] makes for a record of the active
    map ([closed = false]) or of the closed map. *)
Definition treeDataOf (tr : Tracker) (closed : bool) (tabId : Z)
    (tabHistory : TabHistory) : TreeData :=
  {| td_tabId := tabId;
     td_tree := tree tabHistory;
     td_sessionHistory := sessionHistory tabHistory;
     td_currentIndex := num_or (Some (currentIndex tabHistory)) 0;
     td_lastUpdated := lastUpdated tabHistory;
     td_creationTime :=
       num_or (tabCreationTimes tr !! tabId) (lastUpdated tabHistory);
     td_isClosed := closed;
     td_closedAt := if closed then closedAt tabHistory else None;
     td_isActive := negb closed |}.

(** [getAllTabTrees()].  The source walks each [Map] in the order in
    which the tabs were first stored; a [gmap] has no such order, and
    the walk here is that of [map_to_list]: the two differ by the order
    of the tabs that were updated at the same instant. *)
Definition getAllTabTrees (tr : Tracker) : list TreeData :=
  let active :=
    (λ kv, treeDataOf tr false kv.1 kv.2) <$> map_to_list (tabHistories tr) in
  let closed :=
    (λ kv, treeDataOf tr true kv.1 kv.2)
      <$> map_to_list (closedTabHistories tr) in
  sort (λ a b, td_lastUpdated b - td_lastUpdated a) (active ++ closed).

(** [Array.from(map.values()).reduce((sum, history) =>
      sum + history.sessionHistory.length, 0)] *)
Definition sumSessionEntries (m : gmap Z TabHistory) : nat :=
  foldl (λ sum history, (sum + List.length (sessionHistory history))%nat)
        0%nat ((map_to_list m).*2).

(** The answer to ['getStatus']. *)
Record Status := mkStatus {
  trackedTabs : nat;
  activeTabs : nat;
  closedTabs : nat;
  totalSessionEntries : nat }.

Definition getStatus (tr : Tracker) : Status :=
  {| trackedTabs := (size (tabHistories tr) + size (closedTabHistories tr))%nat;
     activeTabs := size (tabHistories tr);
     closedTabs := size (closedTabHistories tr);
     totalSessionEntries :=
       (sumSessionEntries (tabHistories tr)
        + sumSessionEntries (closedTabHistories tr))%nat |}.

(** The answer to ['getStatus'] in the earlier variant
    ([src/unnamed/part_000]): tracked tabs and entries. *)
Definition variantStatus (tr : Tracker) : nat * nat :=
  (size (tabHistories tr), sumSessionEntries (tabHistories tr)).

(** The tree of the debug dump. *)
Inductive DebugNode :=
  debugNode (u : string) (lvl : nat) (cur : bool) (children : list DebugNode).

(** [simplifyTreeForDebug(node)] *)
Fixpoint simplifyTreeForDebug (node : TreeNode) : DebugNode :=
  match node with
  | treeNode e cs lvl cur =>
      debugNode (url e) lvl cur (simplifyTreeForDebug <$> cs)
  end.

(** All nodes of a debug tree, parents before children, each as its
    url, level and marker. *)
Fixpoint debugNodes (d : DebugNode) : list (string * nat * bool) :=
  match d with
  | debugNode u lvl cur cs => (u, lvl, cur) :: mjoin (debugNodes <$> cs)
  end.

(** The blob under the key [historyTrackerData]; a property that the
    blob lacks is [None]. *)
Record Snapshot := mkSnapshot {
  snap_tabHistories : option (list (Z * TabHistory));
  snap_closedTabHistories : option (list (Z * TabHistory));
  snap_tabCreationTimes : option (list (Z * Z));
  snap_lastSaved : Z }.

(** [new Map(entries || [])]: a later pair replaces an earlier one with
    the same key. *)
Definition mapOfEntries {A} (entries : option (list (Z * A))) : gmap Z A :=
  foldl (λ m kv, <[kv.1 := kv.2]> m) ∅ (default [] entries).

(** What [saveToStorage()] writes. *)
Definition saveToStorage (tr : Tracker) (now : Z) : Snapshot :=
  {| snap_tabHistories := Some (map_to_list (tabHistories tr));
     snap_closedTabHistories := Some (map_to_list (closedTabHistories tr));
     snap_tabCreationTimes := Some (map_to_list (tabCreationTimes tr));
     snap_lastSaved := now |}.

(** The loop [for (const [tabId] of this.tabHistories)
      await this.buildTreeFromSessionHistory(tabId)]: an exception
    leaves it, and the [catch] of [loadStoredData] keeps what was done. *)
Fixpoint rebuildAll (tabIds : list Z) (tr : Tracker) : Tracker :=
  match tabIds with
  | [] => tr
  | tabId :: rest =>
      match buildTreeFromSessionHistory tr tabId with
      | Some tr' => rebuildAll rest tr'
      | None => tr
      end
  end.

(** [loadStoredData()], for what [chrome.storage.local.get] returned
    under the key ([None]: nothing stored). *)
Definition loadStoredData (stored : option Snapshot) (tr : Tracker) : Tracker :=
  match stored with
  | None => tr
  | Some data =>
      let tr1 :=
        mkTracker (mapOfEntries (snap_tabHistories data))
                  (mapOfEntries (snap_tabCreationTimes data))
                  (mapOfEntries (snap_closedTabHistories data)) in
      rebuildAll ((map_to_list (tabHistories tr1)).*1) tr1
  end.

(** The numbers that [updateStats()] of the popup writes: all tabs,
    active tabs, closed tabs, entries. *)
Record PopupStats := mkPopupStats {
  ps_total : nat;
  ps_active : nat;
  ps_closed : nat;
  ps_entries : nat }.

Definition updateStats (tabTrees : list TreeData) : PopupStats :=
  {| ps_total := List.length tabTrees;
     ps_active := List.length (filter (λ tab, td_isClosed tab = false) tabTrees);
     ps_closed := List.length (filter (λ tab, td_isClosed tab = true) tabTrees);
     ps_entries :=
       foldl (λ sum tab, (sum + List.length (td_sessionHistory tab))%nat)
             0%nat tabTrees |}.

(** [truncateUrl(url, maxLength)] of the popup; strings are taken as
    sequences of code units, and [substring] clamps its bounds. *)
Definition truncateUrl (u : string) (maxLength : Z) : string :=
  if Z.of_nat (String.length u) <=? maxLength then u
  else String.append (String.substring 0 (Z.to_nat maxLength) u) "...".

(** A log whose tree is the rebuild of its entries and index. *)
Definition coherent (tabHistory : TabHistory) : Prop :=
  rebuiltTree tabHistory = Some (tree tabHistory).

(** A log of pages that the tracker lets in. *)
Definition http_only (tabHistory : TabHistory) : Prop :=
  Forall (λ e, isValidUrl (Some (url e)) = true) (sessionHistory tabHistory).

(** A log that begins with its ['initial'] entry. *)
Definition starts_initial (tabHistory : TabHistory) : Prop :=
  ∃ e, head (sessionHistory tabHistory) = Some e ∧ type e = "initial".

(** Every log of the tracker, active or closed, has the property [Q]. *)
Definition all_logs (Q : TabHistory → Prop) (tr : Tracker) : Prop :=
  (∀ i th, tabHistories tr !! i = Some th → Q th)
  ∧ (∀ i th, closedTabHistories tr !! i = Some th → Q th).

Section MoreRuns.
Context `{Platform}.

(** The events of a list, one after the other. *)
Fixpoint runEvents (tr : Tracker) (evs : list Event) : option Tracker :=
  match evs with
  | [] => Some tr
  | ev :: rest => tr' ← handle tr ev; runEvents tr' rest
  end.

End MoreRuns.

(** A session of two tabs: tab 7 goes from A to B to C, back to B and on
    to D, tab 8 is found open on C, then tab 7 is closed. *)
Module Session.
Section Session.
Local Existing Instance browser.

Definition report (len : Z) : HistoryInfo :=
  mkHistoryInfo (Some len) (Some (1 <? len)) (Some (1 <? len)) JsNull.

Definition events : list Event :=
  [ TabCreated 7 5;
    TabUpdated 7 true (Some Sample.urlA) (Some "A") (report 1) 10;
    TabUpdated 7 true (Some Sample.urlB) (Some "B") (report 2) 20;
    TabUpdated 7 false (Some Sample.urlC) None (report 3) 25;
    TabUpdated 7 true (Some Sample.urlC) (Some "C") (report 3) 30;
    TabActivated 7 (Some Sample.urlB) (Some "B") (report 3) 40;
    TabUpdated 7 true (Some Sample.urlD) None (report 3) 50;
    ExistingTab 8 (Some Sample.urlC) (Some "C") 60;
    TabUpdated 9 true (Some "chrome://settings/") (Some "Settings") defaultInfo 65;
    TabClosed 7 80 ].

(** The tracker before tab 7 is closed, and after. *)
Definition open : Tracker :=
  default emptyTracker (runEvents emptyTracker (take 9 events)).

Definition final : Tracker :=
  default emptyTracker (runEvents emptyTracker events).

(** The log of tab 7 before it is closed. *)
Definition log7 : TabHistory :=
  default (Sample.record [] 0) (tabHistories open !! 7).

End Session.
End Session.

(** * Properties *)

(** ** Array helpers *)

Lemma findIndex_lt {A} (p : A → bool) (arr : list A) (k : nat) :
  findIndex p arr = Some k → (k < List.length arr)%nat.
Proof.
  revert k; induction arr as [|x rest IH]; intros k; simpl; [done|].
  destruct (p x).
  - intros [= <-]. lia.
  - destruct (findIndex p rest) as [j|]; simpl; [|done].
    intros [= <-]. specialize (IH j eq_refl). lia.
Qed.

Lemma findIndex_None {A} (p : A → bool) (arr : list A) :
  findIndex p arr = None → Forall (λ x, p x = false) arr.
Proof.
  induction arr as [|x rest IH]; simpl; [constructor|].
  destruct (p x) eqn:E; [done|].
  destruct (findIndex p rest); simpl; [done|]. auto.
Qed.

Lemma slice0_take {A} (arr : list A) (k : nat) :
  slice0 arr (Z.of_nat k) = take k arr.
Proof.
  unfold slice0. destruct (Z.ltb_spec (Z.of_nat k) 0); [lia|].
  destruct (decide (k ≤ List.length arr)%nat).
  - f_equal. lia.
  - rewrite !take_ge; [done| |]; lia.
Qed.

Lemma slice0_succ {A} (arr : list A) (k : nat) :
  slice0 arr (Z.of_nat k + 1) = take (S k) arr.
Proof. rewrite <- slice0_take. f_equal. lia. Qed.

Lemma index_nat {A} (arr : list A) (k : nat) :
  index arr (Z.of_nat k) = arr !! k.
Proof.
  unfold index. destruct (Z.ltb_spec (Z.of_nat k) 0); [lia|].
  by rewrite Nat2Z.id.
Qed.

Lemma index_Some {A} (arr : list A) (i : Z) (x : A) :
  index arr i = Some x ↔ 0 ≤ i ∧ arr !! Z.to_nat i = Some x.
Proof.
  unfold index. destruct (Z.ltb_spec i 0).
  - split; [done | intros [? _]; lia].
  - split; [intros ?; split; [lia | done] | by intros [_ ?]].
Qed.

Lemma index_valid {A} (arr : list A) (i : Z) :
  0 ≤ i < Z.of_nat (List.length arr) → is_Some (index arr i).
Proof.
  intros Hi. unfold index. destruct (Z.ltb_spec i 0); [lia|].
  apply lookup_lt_is_Some. lia.
Qed.

Lemma adjacent_distinct_spec entries :
  adjacent_distinct entries = true → no_adjacent_dup entries.
Proof.
  induction entries as [|a [|b rest] IH]; intros Hchk k x y Hx Hy.
  - done.
  - by destruct k.
  - simpl in Hchk. apply andb_prop in Hchk as [Hab Hrest].
    destruct k as [|k]; simpl in Hx, Hy.
    + simplify_eq. apply String.eqb_neq. by destruct (String.eqb (url x) (url y)).
    + by apply (IH Hrest k).
Qed.

(** ** Tree builder: the store while the loop runs *)

Section Builder.
Local Open Scope nat_scope.

Lemma shape_set_isCurrent v n : shape (set_isCurrent v n) = shape n.
Proof. done. Qed.

Lemma shape_alter_flag v a (store : list Node) :
  shape <$> alter (set_isCurrent v) a store = shape <$> store.
Proof.
  revert a; induction store as [|n store IH]; intros [|a]; simpl; [done..| ].
  f_equal. apply IH.
Qed.

Lemma shape_forEach_flags store branch idx existingIndex isCur :
  shape <$> forEach_flags store branch idx existingIndex isCur = shape <$> store.
Proof.
  revert store idx; induction branch as [|a rest IH]; intros store idx; simpl;
    [done|].
  by rewrite IH, shape_alter_flag.
Qed.

Lemma same_shape_length (s1 s2 : list Node) :
  shape <$> s1 = shape <$> s2 → List.length s1 = List.length s2.
Proof. intros E. by rewrite <- (length_fmap shape s1), E, length_fmap. Qed.

Lemma same_shape_lookup (s1 s2 : list Node) a n :
  shape <$> s1 = shape <$> s2 → s1 !! a = Some n →
  ∃ m, s2 !! a = Some m ∧ shape m = shape n.
Proof.
  intros E Hn.
  assert (Hs : (shape <$> s2) !! a = Some (shape n))
    by (by rewrite <- E, list_lookup_fmap, Hn).
  rewrite list_lookup_fmap in Hs.
  destruct (s2 !! a) as [m|]; simpl in Hs; [|done].
  exists m. split; [done|congruence].
Qed.

Lemma build_inv_store store branch : build_inv store branch → store_inv store.
Proof.
  intros [Hr Hc Hb Hl]. split; [|done..].
  by apply Hb in Hr.
Qed.

Lemma build_inv_init e cur : build_inv [createTreeNode e 0 cur] [0].
Proof.
  split.
  - done.
  - intros [|a] n c; simpl; [|done]. intros [= <-]. simpl. by intros ?%elem_of_nil.
  - intros [|k] a; simpl; [|done]. intros [= <-]. eauto.
  - intros [|a] n c m; simpl; [|done]. intros [= <-]. simpl. by intros ?%elem_of_nil.
Qed.

Lemma build_inv_revisit store branch existingIndex isCur :
  build_inv store branch →
  build_inv (forEach_flags store (take (S existingIndex) branch) 0 existingIndex isCur)
            (take (S existingIndex) branch).
Proof.
  intros [Hr Hc Hb Hl].
  set (store' := forEach_flags _ _ _ _ _).
  assert (E : shape <$> store' = shape <$> store)
    by apply shape_forEach_flags.
  assert (Hback : ∀ a m, store' !! a = Some m →
            ∃ n, store !! a = Some n ∧ shape n = shape m).
  { intros a m Hm. by apply (same_shape_lookup store' store). }
  split.
  - rewrite lookup_take_lt; [done|lia].
  - intros a m c Hm Hin. destruct (Hback _ _ Hm) as (n & Hn & [= En Ec El]).
    rewrite (same_shape_length _ _ E). apply (Hc a n c Hn). by rewrite Ec.
  - intros k a [Hk _]%lookup_take_Some.
    destruct (Hb _ _ Hk) as (n & Hn & Hlv).
    destruct (same_shape_lookup store store' a n (eq_sym E) Hn)
      as (m & Hm & [= En Ec El]).
    exists m. split; [done|congruence].
  - intros a m c mc Hm Hin Hmc.
    destruct (Hback _ _ Hm) as (n & Hn & [= En Ec El]).
    destruct (Hback _ _ Hmc) as (nc & Hnc & [= Enc Ecc Elc]).
    rewrite <- El, <- Elc. apply (Hl a n c nc Hn); [by rewrite Ec|done].
Qed.

(** A lookup in the store after a new node was linked under [p]. *)
Lemma lookup_linked store p new a m :
  p < List.length store →
  alter (push_child (List.length store)) p (store ++ [new]) !! a = Some m →
  (a = List.length store ∧ m = new) ∨
  (∃ n, store !! a = Some n ∧ entry m = entry n ∧ level m = level n ∧
        isCurrent m = isCurrent n ∧
        ((a ≠ p ∧ children m = children n) ∨
         (a = p ∧ children m = children n ++ [List.length store]))).
Proof.
  intros Hp. destruct (decide (a = p)) as [->|Hne].
  - rewrite list_lookup_alter_eq, lookup_app_l by done.
    destruct (store !! p) as [n|] eqn:Hn; simpl; [|done].
    intros [= <-]. right. exists n. split; [done|]. simpl. eauto 10.
  - rewrite list_lookup_alter_ne by done.
    intros [[Ha Hm]|[-> ->]]%lookup_snoc_Some; [right|left; done].
    exists m. eauto 10.
Qed.

Lemma build_inv_append store branch p e isCur :
  build_inv store branch →
  last branch = Some p →
  build_inv
    (alter (push_child (List.length store)) p
           (store ++ [createTreeNode e (List.length branch) isCur]))
    (branch ++ [List.length store]).
Proof.
  intros [Hr Hc Hb Hl] Hlast.
  rewrite last_lookup in Hlast.
  destruct (Hb _ _ Hlast) as (np & Hnp & Hlvp).
  assert (Hp : p < List.length store) by (by eapply lookup_lt_Some).
  assert (Hbne : 0 < List.length branch) by (by eapply lookup_lt_Some).
  set (new := createTreeNode e (List.length branch) isCur).
  set (store' := alter _ p _).
  assert (Hlen : List.length store' = S (List.length store)).
  { unfold store'. rewrite length_alter, length_app. simpl. lia. }
  split.
  - by rewrite lookup_app_l.
  - intros a m c Hm Hin. rewrite Hlen.
    apply lookup_linked in Hm as [[-> ->]|(n & Hn & _ & _ & _ & Hch)]; [| |done].
    { by apply elem_of_nil in Hin. }
    destruct Hch as [[_ Ec]|[-> Ec]]; rewrite Ec in Hin.
    + specialize (Hc _ _ _ Hn Hin). lia.
    + apply elem_of_app in Hin as [Hin|Hin%list_elem_of_singleton].
      * specialize (Hc _ _ _ Hn Hin). lia.
      * lia.
  - intros k a [[Hk Ha]|[-> <-]]%lookup_snoc_Some.
    + destruct (Hb _ _ Ha) as (n & Hn & Hlv).
      destruct (decide (a = p)) as [->|Hne].
      * exists (push_child (List.length store) n). split; [|done].
        unfold store'. by rewrite list_lookup_alter_eq, lookup_app_l, Hn.
      * exists n. split; [|done].
        unfold store'. rewrite list_lookup_alter_ne by done.
        by apply lookup_app_l_Some.
    + exists new. split; [|done].
      unfold store'. rewrite list_lookup_alter_ne by lia.
      by apply list_lookup_middle.
  - intros a m c mc Hm Hin Hmc.
    apply lookup_linked in Hm as [[-> ->]|(n & Hn & _ & Elv & _ & Hch)]; [| |done].
    { by apply elem_of_nil in Hin. }
    apply lookup_linked in Hmc as [[-> ->]|(nc & Hnc & _ & Elc & _ & _)]; [| |done].
    + (* the child is the new node: its parent is the end of the branch *)
      destruct Hch as [[_ Ec]|[-> Ec]]; rewrite Ec in Hin.
      * specialize (Hc _ _ _ Hn Hin). lia.
      * simpl. rewrite Elv. simplify_eq. lia.
    + rewrite Elv, Elc.
      destruct Hch as [[_ Ec]|[-> Ec]]; rewrite Ec in Hin.
      * by apply (Hl a n c nc).
      * apply elem_of_app in Hin as [Hin|Hin%list_elem_of_singleton].
        -- by apply (Hl p n c nc).
        -- apply lookup_lt_Some in Hnc. lia.
Qed.

(** The loop never fails, and it keeps the invariant. *)
Lemma buildLoop_inv curIdx entries : ∀ i store branch,
  build_inv store branch →
  ∃ store', buildLoop curIdx i entries store branch = Some store'
            ∧ store_inv store'.
Proof.
  induction entries as [|e rest IH]; intros i store branch Hinv; simpl.
  - eauto using build_inv_store.
  - destruct (findIndex (url_matches store e) branch) as [existingIndex|] eqn:Hfind.
    + rewrite slice0_succ. apply IH. by apply build_inv_revisit.
    + destruct (last branch) as [p|] eqn:Hlast; simpl.
      * apply IH. by apply build_inv_append.
      * rewrite last_lookup in Hlast. destruct Hinv as [Hr _ _ _].
        apply lookup_lt_Some in Hr. apply lookup_ge_None in Hlast. lia.
Qed.

End Builder.

(** ** Tree builder: the tree read off the store *)

Section Reify.
Local Open Scope nat_scope.

Lemma reify_total store :
  store_inv store → ∀ fuel a,
  a < List.length store → List.length store - a ≤ fuel →
  is_Some (reify fuel store a).
Proof.
  intros [_ Hc _]. induction fuel as [|fuel IH]; intros a Ha Hfuel; [lia|].
  simpl. destruct (store !! a) as [n|] eqn:Hn; simpl.
  - assert (Hcs : is_Some (mapM (reify fuel store) (children n))).
    { apply mapM_is_Some_2, Forall_forall. intros c Hin. simpl.
      specialize (Hc _ _ _ Hn Hin). apply IH; lia. }
    destruct Hcs as [cs ->]. simpl. eauto.
  - apply lookup_ge_None in Hn. lia.
Qed.

Lemma reify_node fuel store a t :
  reify fuel store a = Some t →
  ∃ n cs, store !! a = Some n
          ∧ Forall2 (λ c tc, reify (pred fuel) store c = Some tc) (children n) cs
          ∧ t = treeNode (entry n) cs (level n) (isCurrent n).
Proof.
  destruct fuel as [|fuel]; simpl; [done|].
  destruct (store !! a) as [n|]; simpl; [|done].
  destruct (mapM _ _) as [cs|] eqn:Hcs; simpl; [|done].
  intros [= <-]. apply mapM_Some_1 in Hcs. eauto.
Qed.

Lemma reify_levels store :
  store_inv store → ∀ fuel a n t,
  store !! a = Some n → reify fuel store a = Some t →
  ∀ d x, occurs_at t d x → node_level x = level n + d.
Proof.
  intros [_ _ Hl]. induction fuel as [|fuel IH]; intros a n t Hn Ht d x Hocc;
    [done|].
  apply reify_node in Ht as (n' & cs & Hn' & Hcs & ->). simplify_eq/=.
  inversion Hocc as [|? c d' ? Hin Hsub]; subst; simpl in *.
  - lia.
  - apply list_elem_of_lookup in Hin as [k Hk].
    destruct (Forall2_lookup_r _ _ _ _ _ Hcs Hk) as (a' & Ha' & Hc).
    destruct (reify_node _ _ _ _ Hc) as (m & _ & Hm & _ & _).
    rewrite (IH a' m c Hm Hc _ _ Hsub).
    rewrite (Hl a n a' m Hn); [lia| |done].
    apply list_elem_of_lookup. eauto.
Qed.

Lemma buildTree_store rootEntry rest curIdx :
  ∃ store root,
    buildLoop curIdx 1 rest
      [createTreeNode rootEntry 0 (bool_decide (curIdx = 0%Z))] [0]
      = Some store
    ∧ store_inv store
    ∧ reify (List.length store) store 0 = Some root
    ∧ buildTree rootEntry rest curIdx = Some root.
Proof.
  destruct (buildLoop_inv curIdx rest 1 _ _
              (build_inv_init rootEntry (bool_decide (curIdx = 0%Z))))
    as (store & Hloop & Hinv).
  assert (Hlen : 0 < List.length store).
  { destruct Hinv as [(n & Hn & _) _ _]. by eapply lookup_lt_Some. }
  destruct (reify_total store Hinv (List.length store) 0 Hlen) as [root Hroot];
    [lia|].
  exists store, root. unfold buildTree. rewrite Hloop. simpl. eauto.
Qed.

(** The rebuild of a non-empty log produces a tree. *)
Lemma buildTree_total rootEntry rest curIdx :
  is_Some (buildTree rootEntry rest curIdx).
Proof.
  destruct (buildTree_store rootEntry rest curIdx) as (? & root & _ & _ & _ & ->).
  eauto.
Qed.

End Reify.

(** ** Session tracker: one update of a tracked tab *)

Section Updates.
Context `{Platform}.

Lemma alter_tracked {A} (f : A → A) (m : gmap Z A) i x :
  m !! i = Some x → alter f i m = <[i := f x]> m.
Proof.
  intros Hx. rewrite <- (insert_id m i x) at 1 by done.
  apply alter_insert_eq.
Qed.

Lemma buildTreeFromSessionHistory_tracked tr tabId th :
  tabHistories tr !! tabId = Some th →
  sessionHistory th ≠ [] →
  ∃ root, rebuiltTree th = Some root ∧
    buildTreeFromSessionHistory tr tabId
    = Some (set_tabHistories (<[tabId := set_tree root th]> (tabHistories tr)) tr).
Proof.
  intros Hth Hne. unfold buildTreeFromSessionHistory, rebuiltTree. rewrite Hth.
  destruct (sessionHistory th) as [|e rest]; [done|].
  destruct (buildTree_total e rest (currentIndex th)) as [root ->].
  exists root. done.
Qed.

Lemma detectBackNavigation_tracked tr tabId th u historyInfo :
  tabHistories tr !! tabId = Some th → valid_index th →
  detectBackNavigation tr tabId u historyInfo = Some (spec_Back th u historyInfo).
Proof.
  intros Hth [Hlo Hhi]. unfold detectBackNavigation, spec_Back, url_at.
  rewrite Hth.
  destruct (Z.ltb_spec (Z.of_nat (List.length (sessionHistory th))) 2).
  - destruct (Z.ltb_spec 0 (currentIndex th)); [lia|done].
  - destruct (Z.ltb_spec 0 (currentIndex th)); [|done].
    destruct (index_valid (sessionHistory th) (currentIndex th - 1)) as [e ->];
      [lia|].
    destruct (index_valid (sessionHistory th) (currentIndex th)) as [c ->];
      [lia|].
    simpl. by destruct (_ && _).
Qed.

Lemma detectForwardNavigation_tracked tr tabId th u historyInfo :
  tabHistories tr !! tabId = Some th → valid_index th →
  detectForwardNavigation tr tabId u historyInfo
  = Some (spec_Forward th u historyInfo).
Proof.
  intros Hth [Hlo Hhi]. unfold detectForwardNavigation, spec_Forward, url_at.
  rewrite Hth.
  destruct (Z.leb_spec (Z.of_nat (List.length (sessionHistory th)) - 1)
              (currentIndex th));
    destruct (Z.ltb_spec (currentIndex th)
                (Z.of_nat (List.length (sessionHistory th)) - 1));
    try lia; [done|].
  destruct (index_valid (sessionHistory th) (currentIndex th + 1)) as [e ->];
    [lia|].
  destruct (index_valid (sessionHistory th) (currentIndex th)) as [c ->];
    [lia|].
  simpl. by destruct (_ && _).
Qed.

Lemma handleNewNavigation_tracked tr tabId th u ttl ty historyInfo now :
  tabHistories tr !! tabId = Some th → valid_index th →
  handleNewNavigation tr tabId u ttl ty historyInfo now
  = if spec_Refresh th u then tr
    else
      let pushed :=
        take (S (Z.to_nat (currentIndex th))) (sessionHistory th)
        ++ [createHistoryEntry u ttl ty now historyInfo now] in
      set_tabHistories
        (<[tabId := set_currentIndex (Z.of_nat (List.length pushed) - 1)
                      (set_sessionHistory pushed th)]> (tabHistories tr)) tr.
Proof.
  intros Hth [Hlo Hhi]. unfold handleNewNavigation, spec_Refresh, url_at.
  rewrite Hth.
  destruct (index (sessionHistory th) (currentIndex th)) as [e|]; simpl;
    [destruct (String.eqb (url e) u); [done|]|].
  all: replace (currentIndex th + 1) with (Z.of_nat (S (Z.to_nat (currentIndex th))))
         by lia;
       rewrite slice0_take;
       destruct (Z.ltb_spec (currentIndex th)
                   (Z.of_nat (List.length (sessionHistory th)) - 1)); [done|];
       rewrite (take_ge (sessionHistory th)) by lia; done.
Qed.

(** The whole effect of [updateTabHistory] on a tracked tab. *)
Lemma updateTabHistory_tracked tr tabId th u ttl ty historyInfo now :
  tabHistories tr !! tabId = Some th → valid_index th →
  let th' := logAfterUpdate th u ttl ty historyInfo now in
  ∃ root, rebuiltTree th' = Some root ∧
    updateTabHistory tr tabId u ttl ty historyInfo now
    = Some (set_tabHistories
              (<[tabId := set_tree root (set_lastUpdated now th')]>
                 (tabHistories tr)) tr).
Proof.
  intros Hth Hvalid th'.
  assert (Hne : sessionHistory th' ≠ []).
  { unfold th', logAfterUpdate.
    destruct Hvalid as [Hlo Hhi].
    assert (sessionHistory th ≠ []) by (destruct (sessionHistory th); simpl in *; [lia|done]).
    repeat case_match; simpl; try done.
    intros [_ ?]%app_eq_nil. done. }
  assert (Hstep : ∀ tr2,
    tabHistories tr2 = <[tabId := th']> (tabHistories tr) →
    tabCreationTimes tr2 = tabCreationTimes tr →
    closedTabHistories tr2 = closedTabHistories tr →
    ∃ root, rebuiltTree th' = Some root ∧
      buildTreeFromSessionHistory
        (set_tabHistories (alter (set_lastUpdated now) tabId (tabHistories tr2)) tr2)
        tabId
      = Some (set_tabHistories
                (<[tabId := set_tree root (set_lastUpdated now th')]>
                   (tabHistories tr)) tr)).
  { intros tr2 E1 E2 E3.
    destruct (buildTreeFromSessionHistory_tracked
                (set_tabHistories (alter (set_lastUpdated now) tabId (tabHistories tr2)) tr2)
                tabId (set_lastUpdated now th')) as (root & Hroot & ->).
    - simpl. by rewrite E1, alter_insert_eq, lookup_insert_eq.
    - done.
    - exists root. split; [done|]. f_equal. unfold set_tabHistories. simpl.
      rewrite E1, E2, E3, alter_insert_eq, insert_insert_eq. done. }
  unfold updateTabHistory. rewrite Hth.
  rewrite (detectBackNavigation_tracked tr tabId th) by done.
  rewrite (detectForwardNavigation_tracked tr tabId th) by done.
  simpl. unfold th', logAfterUpdate in *.
  destruct (spec_Back th u historyInfo) eqn:Hback.
  { apply Hstep; unfold handleBackNavigation; rewrite Hth; simpl; [|done..].
    f_equal. f_equal. unfold spec_Back in Hback.
    destruct (Z.ltb_spec 0 (currentIndex th)); [lia|done]. }
  destruct (spec_Forward th u historyInfo) eqn:Hfwd.
  { apply Hstep; unfold handleForwardNavigation; rewrite Hth; simpl; [|done..].
    f_equal. f_equal. unfold spec_Forward in Hfwd.
    destruct (Z.ltb_spec (currentIndex th)
                (Z.of_nat (List.length (sessionHistory th)) - 1)); [lia|done]. }
  rewrite (handleNewNavigation_tracked tr tabId th) by done.
  destruct (spec_Refresh th u) eqn:Hrefresh.
  - apply Hstep; [|done..]. by rewrite insert_id.
  - by apply Hstep.
Qed.

End Updates.

(** ** Session tracker: invariants of the log *)

Section Invariants.
Context `{Platform}.

Lemma newTabHistory_rebuilt tr tabId u ttl now :
  rebuiltTree (newTabHistory tr tabId u ttl now)
  = Some (tree (newTabHistory tr tabId u ttl now)).
Proof. done. Qed.

Lemma newTabHistory_inv tr tabId u ttl now :
  log_inv (newTabHistory tr tabId u ttl now).
Proof.
  split; [unfold valid_index; simpl; lia|].
  intros k a b Ha Hb. simpl in *. by destruct k.
Qed.

Lemma logAfterUpdate_new tr tabId u ttl ty historyInfo now :
  logAfterUpdate (newTabHistory tr tabId u ttl now) u ttl ty historyInfo now
  = newTabHistory tr tabId u ttl now.
Proof.
  unfold logAfterUpdate, spec_Back, spec_Forward, spec_Refresh, url_at. simpl.
  by rewrite String.eqb_refl.
Qed.

(** The first update of a tab creates its log and leaves it there. *)
Lemma updateTabHistory_untracked tr tabId u ttl ty historyInfo now :
  tabHistories tr !! tabId = None →
  updateTabHistory tr tabId u ttl ty historyInfo now
  = Some (set_tabHistories
            (<[tabId := newTabHistory tr tabId u ttl now]> (tabHistories tr)) tr).
Proof.
  intros Hnone.
  set (new := newTabHistory tr tabId u ttl now).
  set (tr1 := set_tabHistories (<[tabId := new]> (tabHistories tr)) tr).
  assert (E : updateTabHistory tr tabId u ttl ty historyInfo now
              = updateTabHistory tr1 tabId u ttl ty historyInfo now).
  { unfold updateTabHistory at 1 2. rewrite Hnone. unfold tr1 at 1. simpl.
    by rewrite lookup_insert_eq. }
  destruct (updateTabHistory_tracked tr1 tabId new u ttl ty historyInfo now)
    as (root & Hroot & Hup).
  - apply lookup_insert_eq.
  - apply newTabHistory_inv.
  - rewrite E, Hup. unfold new in Hroot |- *.
    rewrite logAfterUpdate_new in Hroot |- *.
    rewrite newTabHistory_rebuilt in Hroot. injection Hroot as <-.
    unfold tr1, set_tabHistories. simpl. by rewrite insert_insert_eq.
Qed.

Lemma logAfterUpdate_valid th u ttl ty historyInfo now :
  valid_index th → valid_index (logAfterUpdate th u ttl ty historyInfo now).
Proof.
  unfold valid_index, logAfterUpdate, spec_Back, spec_Forward.
  intros [Hlo Hhi].
  destruct (Z.ltb_spec 0 (currentIndex th));
    destruct (Z.ltb_spec (currentIndex th)
                (Z.of_nat (List.length (sessionHistory th)) - 1));
    simpl; repeat case_match; simpl; try lia.
  all: rewrite length_app; simpl; lia.
Qed.

Lemma url_at_false entries (k : nat) e u :
  entries !! k = Some e → url_at entries (Z.of_nat k) u = false → url e ≠ u.
Proof.
  unfold url_at. rewrite index_nat. intros -> Hneq.
  by apply String.eqb_neq.
Qed.

Lemma logAfterUpdate_no_adjacent_dup th u ttl ty historyInfo now :
  log_inv th →
  no_adjacent_dup (sessionHistory (logAfterUpdate th u ttl ty historyInfo now)).
Proof.
  intros [[Hlo Hhi] Hdup]. unfold logAfterUpdate.
  destruct (spec_Back th u historyInfo); [done|].
  destruct (spec_Forward th u historyInfo); [done|].
  destruct (spec_Refresh th u) eqn:Hrefresh; [done|]. simpl.
  intros k a b Ha Hb.
  apply lookup_snoc_Some in Hb as [[Hk Hb]|[Hk <-]].
  - rewrite lookup_app_l in Ha by lia.
    apply lookup_take_Some in Ha as [Ha _], Hb as [Hb _]. eauto.
  - rewrite length_take_le in Hk by lia. injection Hk as ->.
    rewrite lookup_app_l in Ha by (rewrite length_take_le; lia).
    apply lookup_take_Some in Ha as [Ha _]. simpl.
    apply (url_at_false (sessionHistory th) (Z.to_nat (currentIndex th))); [done|].
    unfold spec_Refresh in Hrefresh. by rewrite Z2Nat.id.
Qed.

Lemma logAfterUpdate_inv th u ttl ty historyInfo now :
  log_inv th → log_inv (logAfterUpdate th u ttl ty historyInfo now).
Proof.
  intros Hinv. split.
  - apply logAfterUpdate_valid, Hinv.
  - by apply logAfterUpdate_no_adjacent_dup.
Qed.

(** One update, tracked or not, for a property [P] of logs that every
    fresh log has and that [logAfterUpdate] keeps. *)
Lemma updateTabHistory_keeps (P : TabHistory → Prop) tr tabId u ttl ty
    historyInfo now :
  (∀ th, P th → valid_index th) →
  (∀ th r t, P th → P (set_tree r (set_lastUpdated t th))) →
  (∀ tr0 i v l t, P (newTabHistory tr0 i v l t)) →
  (∀ th v l y h t, P th → P (logAfterUpdate th v l y h t)) →
  (∀ th, tabHistories tr !! tabId = Some th → P th) →
  ∃ tr' th', updateTabHistory tr tabId u ttl ty historyInfo now = Some tr'
    ∧ tabHistories tr' = <[tabId := th']> (tabHistories tr)
    ∧ tabCreationTimes tr' = tabCreationTimes tr
    ∧ closedTabHistories tr' = closedTabHistories tr
    ∧ P th'.
Proof.
  intros Hvalid Htree Hnew Hstep Hth.
  destruct (tabHistories tr !! tabId) as [th|] eqn:E.
  - destruct (updateTabHistory_tracked tr tabId th u ttl ty historyInfo now)
      as (root & _ & ->); [done|by apply Hvalid, Hth|].
    eexists _, _. split; [done|]. simpl. repeat split. by apply Htree, Hstep, Hth.
  - rewrite updateTabHistory_untracked by done.
    eexists _, _. split; [done|]. simpl. repeat split. apply Hnew.
Qed.

Lemma updates_keep (P : TabHistory → Prop) tabId ups :
  (∀ th, P th → valid_index th) →
  (∀ th r t, P th → P (set_tree r (set_lastUpdated t th))) →
  (∀ tr0 i v l t, P (newTabHistory tr0 i v l t)) →
  (∀ th v l y h t, P th → P (logAfterUpdate th v l y h t)) →
  ∀ tr,
  (∀ th, tabHistories tr !! tabId = Some th → P th) →
  ∃ tr', updates tr tabId ups = Some tr'
    ∧ (∀ th, tabHistories tr' !! tabId = Some th → P th)
    ∧ (is_Some (tabHistories tr !! tabId) ∨ ups ≠ [] →
       is_Some (tabHistories tr' !! tabId)).
Proof.
  intros Hvalid Htree Hnew Hstep.
  induction ups as [|up rest IH]; intros tr Hth; simpl.
  - exists tr. split; [done|]. split; [done|]. by intros [?|?].
  - destruct (updateTabHistory_keeps P tr tabId (up_url up) (up_title up)
                (up_type up) (up_info up) (up_now up))
      as (tr1 & th1 & -> & Hmap & _ & _ & Hth1); [done..|].
    simpl. destruct (IH tr1) as (tr' & -> & Hth' & Hsome).
    + intros th. rewrite Hmap, lookup_insert_eq. by intros [= <-].
    + exists tr'. split; [done|]. split; [done|].
      intros _. apply Hsome. left. rewrite Hmap, lookup_insert_eq. eauto.
Qed.

End Invariants.

(** * The tracker as a whole

    Every handler keeps every log, active or closed, well formed, and no
    handler fails on a tracker whose logs are well formed. *)

Section Reachable.
Context `{Platform}.

Lemma log_inv_frame th r t :
  log_inv th → log_inv (set_tree r (set_lastUpdated t th)).
Proof. done. Qed.

Lemma tracker_inv_insert tr tr' tabId th' :
  tracker_inv tr → log_inv th' →
  tabHistories tr' = <[tabId := th']> (tabHistories tr) →
  closedTabHistories tr' = closedTabHistories tr →
  tracker_inv tr'.
Proof.
  intros [Hact Hclosed] Hinv Emap Eclosed. split.
  - intros i th. rewrite Emap. intros [[_ <-]|[_ Hth]]%lookup_insert_Some;
      [done|eauto].
  - intros i th. rewrite Eclosed. eauto.
Qed.

Lemma updateTabHistory_inv tr tabId u ttl ty historyInfo now :
  tracker_inv tr →
  ∃ tr', updateTabHistory tr tabId u ttl ty historyInfo now = Some tr'
         ∧ tracker_inv tr'.
Proof.
  intros Hinv.
  destruct (updateTabHistory_keeps log_inv tr tabId u ttl ty historyInfo now)
    as (tr' & th' & Hup & Emap & _ & Eclosed & Hth').
  - by intros th [? _].
  - done.
  - intros. apply newTabHistory_inv.
  - intros. by apply logAfterUpdate_inv.
  - intros th Hth. by apply (proj1 Hinv tabId).
  - exists tr'. split; [done|]. by eapply tracker_inv_insert.
Qed.

Lemma buildTreeFromSessionHistory_inv tr tabId :
  tracker_inv tr →
  ∃ tr', buildTreeFromSessionHistory tr tabId = Some tr' ∧ tracker_inv tr'.
Proof.
  intros Hinv.
  destruct (tabHistories tr !! tabId) as [th|] eqn:Hth.
  - destruct (buildTreeFromSessionHistory_tracked tr tabId th Hth)
      as (root & _ & ->).
    + destruct (proj1 Hinv tabId th Hth) as [[Hlo Hhi] _].
      destruct (sessionHistory th); simpl in *; [lia|done].
    + eexists. split; [done|].
      apply (tracker_inv_insert tr _ tabId (set_tree root th) Hinv);
        [exact (proj1 Hinv tabId th Hth)|done..].
  - exists tr. split; [|done]. unfold buildTreeFromSessionHistory. by rewrite Hth.
Qed.

Lemma handleTabCreated_inv tr tabId now :
  tracker_inv tr → tracker_inv (handleTabCreated tr tabId now).
Proof. done. Qed.

Lemma initializeTabHistory_inv tr tabId u ttl now :
  tracker_inv tr → tracker_inv (initializeTabHistory tr tabId u ttl now).
Proof.
  intros Hinv. unfold initializeTabHistory.
  destruct (tabHistories tr !! tabId); [done|].
  eapply tracker_inv_insert; try done. apply newTabHistory_inv.
Qed.

Lemma handleTabClose_inv tr tabId now :
  tracker_inv tr → tracker_inv (handleTabClose tr tabId now).
Proof.
  intros [Hact Hclosed]. unfold handleTabClose.
  destruct (tabHistories tr !! tabId) as [th|] eqn:Hth; [|done].
  split; simpl.
  - intros i th' [_ Hth']%lookup_delete_Some. eauto.
  - intros i th' [[_ <-]|[_ Hth']]%lookup_insert_Some; [|eauto].
    apply (Hact tabId th Hth).
Qed.

Lemma handle_inv tr ev :
  tracker_inv tr → ∃ tr', handle tr ev = Some tr' ∧ tracker_inv tr'.
Proof.
  intros Hinv. destruct ev as [tabId now|tabId tabUrl ttl now
    |tabId statusComplete tabUrl ttl historyInfo now
    |tabId tabUrl ttl historyInfo now|tabId now|action tabId]; simpl.
  - eauto using handleTabCreated_inv.
  - assert (Hinv0 : tracker_inv
              (if decide (is_Some (tabCreationTimes tr !! tabId)) then tr
               else handleTabCreated tr tabId now))
      by (case_decide; [done|by apply handleTabCreated_inv]).
    destruct tabUrl as [u|]; [|eauto].
    destruct (isValidUrl (Some u)); eauto using initializeTabHistory_inv.
  - unfold handleTabUpdate. destruct tabUrl as [u|]; [|eauto].
    destruct (statusComplete && isValidUrl (Some u)); [|eauto].
    by apply updateTabHistory_inv.
  - unfold handleTabActivation. destruct tabUrl as [u|]; [|eauto].
    destruct (isValidUrl (Some u)); [|eauto].
    by apply updateTabHistory_inv.
  - eauto using handleTabClose_inv.
  - unfold handleMessage.
    destruct (String.eqb action "clearHistory").
    { eexists. split; [done|].
      by split; intros i th; simpl; rewrite lookup_empty. }
    destruct (String.eqb action "clearClosedTabs").
    { eexists. split; [done|]. destruct Hinv as [Hact _].
      split; [done|]. intros i th. simpl. by rewrite lookup_empty. }
    destruct (String.eqb action "refreshTabHistory"); [|eauto].
    destruct tabId as [t|]; [|eauto].
    destruct (t =? 0); [eauto|]. by apply buildTreeFromSessionHistory_inv.
Qed.

(** Every log of a reachable tracker has a valid index and no equal
    neighbours. *)
Lemma reachable_inv tr : reachable tr → tracker_inv tr.
Proof.
  induction 1 as [|tr ev tr' _ IH Hstep].
  - by split; intros i th; simpl; rewrite lookup_empty.
  - destruct (handle_inv tr ev IH) as (tr'' & Hstep' & Hinv).
    by simplify_eq.
Qed.

(** No event makes a handler throw on a reachable tracker. *)
Lemma reachable_progress tr ev : reachable tr → is_Some (handle tr ev).
Proof.
  intros Hreach. destruct (handle_inv tr ev (reachable_inv tr Hreach))
    as (tr' & -> & _). eauto.
Qed.

(** The earlier variant forgets a closed tab: nothing of its record is
    left in either map. *)
Lemma variant_close_forgets tr tabId :
  tabHistories (Variant.handleTabClose tr tabId) !! tabId = None
  ∧ closedTabHistories (Variant.handleTabClose tr tabId)
    = closedTabHistories tr.
Proof. split; [apply lookup_delete_eq|done]. Qed.

End Reachable.

(** * The nodes of the rebuilt tree

    The walk of the rebuilt tree lists the nodes of the store in the
    order of their creation, each once. *)

Section Walk.
Local Open Scope nat_scope.

Lemma preorder_unfold fuel store a l :
  preorder fuel store a = Some l ↔
  ∃ fuel' n ls, fuel = S fuel' ∧ store !! a = Some n
    ∧ Forall2 (λ c lc, preorder fuel' store c = Some lc) (children n) ls
    ∧ l = a :: mjoin ls.
Proof.
  split.
  - destruct fuel as [|fuel']; simpl; [done|].
    destruct (store !! a) as [n|]; simpl; [|done].
    destruct (mapM _ _) as [ls|] eqn:Hls; simpl; [|done].
    intros [= <-]. apply mapM_Some_1 in Hls. eauto 10.
  - intros (fuel' & n & ls & -> & Hn & Hls & ->). simpl. rewrite Hn. simpl.
    apply mapM_Some_2 in Hls. by rewrite Hls.
Qed.

Lemma preorder_mono store : ∀ fuel fuel' a l,
  preorder fuel store a = Some l → fuel ≤ fuel' →
  preorder fuel' store a = Some l.
Proof.
  induction fuel as [|fuel IH]; intros fuel' a l Hl Hle; [done|].
  apply preorder_unfold in Hl as (f & n & ls & [= <-] & Hn & Hls & ->).
  destruct fuel' as [|fuel']; [lia|].
  apply preorder_unfold. exists fuel', n, ls. repeat split; [done|].
  eapply Forall2_impl; [exact Hls|]. intros c lc Hc. apply (IH fuel'); [done|lia].
Qed.

Lemma preorder_shape s1 s2 :
  shape <$> s1 = shape <$> s2 →
  ∀ fuel a, preorder fuel s1 a = preorder fuel s2 a.
Proof.
  intros E. induction fuel as [|fuel IH]; intros a; simpl; [done|].
  assert (Ea : children <$> s1 !! a = children <$> s2 !! a).
  { assert (Es : (shape <$> s1) !! a = (shape <$> s2) !! a) by (by rewrite E).
    rewrite !list_lookup_fmap in Es.
    destruct (s1 !! a), (s2 !! a); simplify_eq/=; [|done].
    by f_equal. }
  rewrite Ea. destruct (children <$> s2 !! a) as [cs|]; simpl; [|done].
  by rewrite (mapM_ext _ _ _ (IH)).
Qed.

Lemma rightmost_shape s1 s2 :
  shape <$> s1 = shape <$> s2 →
  ∀ path a, rightmost s1 a path → rightmost s2 a path.
Proof.
  intros E. induction path as [|b rest IH]; intros a; simpl; [done|].
  intros [(n & Hn & Hlast) Hrest]. split; [|by apply IH].
  destruct (same_shape_lookup s1 s2 a n E Hn) as (m & Hm & [= _ Ec _]).
  exists m. by rewrite Ec.
Qed.

Lemma rightmost_take store : ∀ path a k,
  rightmost store a path → rightmost store a (take k path).
Proof.
  induction path as [|b rest IH]; intros a [|k]; simpl; try done.
  intros [Hlink Hrest]. split; [done|]. by apply IH.
Qed.

Section Link.
Variables (store : list Node) (p : nat) (new : Node).
Hypothesis Hchildren : ∀ a n c,
  store !! a = Some n → c ∈ children n → a < c < List.length store.
Hypothesis Hp : p < List.length store.
Hypothesis Hnew : children new = [].

Local Abbreviation linked :=
  (alter (push_child (List.length store)) p (store ++ [new])).

Lemma preorder_above : ∀ fuel a l,
  preorder fuel store a = Some l → Forall (λ x, a ≤ x < List.length store) l.
Proof.
  induction fuel as [|fuel IH]; intros a l Hl; [done|].
  apply preorder_unfold in Hl as (f & n & ls & [= <-] & Hn & Hls & ->).
  constructor; [split; [lia|by eapply lookup_lt_Some]|].
  apply Forall_join. apply Forall_forall. intros lc Hlc.
  apply list_elem_of_lookup in Hlc as [k Hk].
  destruct (Forall2_lookup_r _ _ _ _ _ Hls Hk) as (c & Hc & Hpre).
  assert (Hin : c ∈ children n) by (apply list_elem_of_lookup; eauto).
  pose proof (Hchildren _ _ _ Hn Hin) as Hord.
  eapply Forall_impl; [exact (IH _ _ Hpre)|]. simpl. lia.
Qed.

(** A subtree that does not hold [p] is not touched by the link. *)
Lemma preorder_frame : ∀ fuel a l,
  preorder fuel store a = Some l → p ∉ l →
  preorder fuel linked a = Some l.
Proof.
  induction fuel as [|fuel IH]; intros a l Hl Hnot; [done|].
  apply preorder_unfold in Hl as (f & n & ls & [= <-] & Hn & Hls & ->).
  apply preorder_unfold. exists fuel, n, ls. repeat split; try done.
  - rewrite list_lookup_alter_ne by (intros ->; apply Hnot; left).
    by apply lookup_app_l_Some.
  - assert (Hnot' : ∀ lc, lc ∈ ls → p ∉ lc).
    { intros lc Hlc Hin. apply Hnot. right. apply list_elem_of_join. eauto. }
    clear Hnot Hn. induction Hls as [|c lc cs ls Hc Hcs IHls]; constructor.
    + apply IH; [done|]. apply Hnot'. left.
    + apply IHls. intros lc' Hlc'. apply Hnot'. by right.
Qed.

Lemma preorder_new fuel :
  preorder (S fuel) linked (List.length store) = Some [List.length store].
Proof.
  apply preorder_unfold. exists fuel, new, []. repeat split; try done.
  - rewrite list_lookup_alter_ne by lia.
    by apply list_lookup_middle.
  - rewrite Hnew. constructor.
Qed.

Lemma preorder_frame_children fuel cs ls :
  Forall2 (λ c lc, preorder fuel store c = Some lc) cs ls →
  (∀ lc, lc ∈ ls → p ∉ lc) →
  Forall2 (λ c lc, preorder (S fuel) linked c = Some lc) cs ls.
Proof.
  induction 1 as [|c lc cs ls Hc Hcs IHls]; intros Hnot; constructor.
  - apply (preorder_mono _ fuel); [|lia]. apply preorder_frame; [done|].
    apply Hnot. left.
  - apply IHls. intros lc' Hlc'. apply Hnot. by right.
Qed.

Lemma rightmost_elem : ∀ path a fuel l,
  rightmost store a path → last (a :: path) = Some p →
  preorder fuel store a = Some l → p ∈ l.
Proof.
  induction path as [|b rest IH]; intros a fuel l Hpath Hlast Hl.
  - simpl in Hlast. injection Hlast as ->.
    apply preorder_unfold in Hl as (f & n & ls & _ & _ & _ & ->). left.
  - destruct Hpath as [(n & Hn & Hb) Hrest].
    apply preorder_unfold in Hl as (f & n' & ls & -> & Hn' & Hls & ->).
    simplify_eq. apply last_Some in Hb as [cinit Hcs]. rewrite Hcs in Hls.
    apply Forall2_app_inv_l in Hls as (linit & lb & _ & Hlb & ->).
    apply Forall2_cons_inv_l in Hlb as (lb' & ? & Hpre & _ & ->).
    right. rewrite join_app. apply elem_of_app. right. simpl.
    apply elem_of_app. left. by apply (IH b f).
Qed.

(** Linking a new node under the end of the path of youngest children
    puts it at the end of the walk. *)
Lemma preorder_link : ∀ path a fuel l,
  rightmost store a path → last (a :: path) = Some p →
  preorder fuel store a = Some l → NoDup l →
  preorder (S fuel) linked a = Some (l ++ [List.length store]).
Proof.
  induction path as [|b rest IH]; intros a fuel l Hpath Hlast Hl Hnodup.
  - simpl in Hlast. injection Hlast as ->.
    apply preorder_unfold in Hl as (f & n & ls & -> & Hn & Hls & ->).
    apply preorder_unfold.
    exists (S f), (push_child (List.length store) n), (ls ++ [[List.length store]]).
    split; [done|]. split.
    { by rewrite list_lookup_alter_eq, lookup_app_l, Hn. }
    split; [|by rewrite join_app].
    change (children (push_child (List.length store) n))
      with (children n ++ [List.length store]).
    apply Forall2_app; [|constructor; [apply preorder_new|constructor]].
    apply preorder_frame_children; [done|].
    intros lc Hlc Hplc. apply list_elem_of_lookup in Hlc as [k Hk].
    destruct (Forall2_lookup_r _ _ _ _ _ Hls Hk) as (c & Hc & Hpre).
    assert (Hin : c ∈ children n) by (apply list_elem_of_lookup; eauto).
    pose proof (Hchildren _ _ _ Hn Hin) as Hord.
    apply preorder_above in Hpre. rewrite Forall_forall in Hpre.
    specialize (Hpre _ Hplc). lia.
  - destruct Hpath as [(n & Hn & Hb) Hrest].
    apply preorder_unfold in Hl as (f & n' & ls & -> & Hn' & Hls & ->).
    simplify_eq. apply last_Some in Hb as [cinit Hcs].
    assert (Hab : a < b).
    { assert (Hbin : b ∈ children n)
        by (rewrite Hcs; apply elem_of_app; right; left).
      pose proof (Hchildren a n b Hn Hbin). lia. }
    rewrite Hcs in Hls.
    apply Forall2_app_inv_l in Hls as (linit & lb & Hinit & Hlb & ->).
    apply Forall2_cons_inv_l in Hlb as (lb' & ? & Hpre & ->%Forall2_nil_inv_l & ->).
    rewrite join_app in Hnodup. simpl in Hnodup. rewrite app_nil_r in Hnodup.
    apply NoDup_cons in Hnodup as [_ Hnodup].
    apply NoDup_app in Hnodup as (_ & Hdisj & Hnodupb).
    assert (Hpb : p ∈ lb') by (by apply (rightmost_elem rest b f)).
    assert (Hap : a ≠ p).
    { apply preorder_above in Hpre. rewrite Forall_forall in Hpre.
      specialize (Hpre _ Hpb). lia. }
    apply preorder_unfold.
    exists (S f), n, (linit ++ [lb' ++ [List.length store]]).
    split; [done|]. split.
    { rewrite list_lookup_alter_ne by done.
      by apply lookup_app_l_Some. }
    split.
    + rewrite Hcs. apply Forall2_app.
      * apply preorder_frame_children; [done|].
        intros lc Hlc Hplc. apply (Hdisj p); [|done].
        apply list_elem_of_join. eauto.
      * constructor; [|constructor]. by apply (IH b f).
    + rewrite !join_app. simpl. rewrite !app_nil_r.
      by rewrite <- !app_assoc.
Qed.

Lemma rightmost_le : ∀ path a,
  rightmost store a path → last (a :: path) = Some p → a ≤ p.
Proof.
  induction path as [|b rest IH]; intros a Hpath Hlast.
  - simpl in Hlast. injection Hlast as ->. lia.
  - destruct Hpath as [(n & Hn & Hb) Hrest].
    assert (Hbin : b ∈ children n).
    { apply last_Some in Hb as [cinit ->]. apply elem_of_app. right. left. }
    pose proof (Hchildren a n b Hn Hbin).
    assert (b ≤ p) by (by apply IH). lia.
Qed.

Lemma rightmost_link : ∀ path a,
  rightmost store a path → last (a :: path) = Some p →
  rightmost linked a (path ++ [List.length store]).
Proof.
  induction path as [|b rest IH]; intros a Hpath Hlast.
  - simpl in Hlast. injection Hlast as ->. simpl. split; [|done].
    destruct (lookup_lt_is_Some_2 store p Hp) as [n Hn].
    exists (push_child (List.length store) n). split.
    + by rewrite list_lookup_alter_eq, lookup_app_l, Hn.
    + simpl. apply last_snoc.
  - destruct Hpath as [(n & Hn & Hb) Hrest]. simpl. split; [|by apply IH].
    assert (Hbin : b ∈ children n).
    { apply last_Some in Hb as [cinit ->]. apply elem_of_app. right. left. }
    pose proof (Hchildren a n b Hn Hbin).
    assert (b ≤ p) by (by apply (rightmost_le rest)).
    exists n. split; [|done].
    rewrite list_lookup_alter_ne by lia.
    by apply lookup_app_l_Some.
Qed.

End Link.

Lemma order_inv_init e cur : order_inv [createTreeNode e 0 cur] [0].
Proof.
  split.
  - by exists 1.
  - by exists [].
Qed.

Lemma order_inv_revisit store branch existingIndex isCur :
  order_inv store branch →
  order_inv
    (forEach_flags store (take (S existingIndex) branch) 0 existingIndex isCur)
    (take (S existingIndex) branch).
Proof.
  intros [[fuel Hwalk] (path & -> & Hpath)].
  set (store' := forEach_flags _ _ _ _ _).
  assert (E : shape <$> store' = shape <$> store) by apply shape_forEach_flags.
  split.
  - exists fuel. by rewrite (preorder_shape _ _ E), (same_shape_length _ _ E).
  - exists (take existingIndex path). split; [done|].
    apply (rightmost_shape store); [done|]. by apply rightmost_take.
Qed.

Lemma order_inv_append store branch p e isCur :
  build_inv store branch → order_inv store branch →
  last branch = Some p →
  order_inv
    (alter (push_child (List.length store)) p
           (store ++ [createTreeNode e (List.length branch) isCur]))
    (branch ++ [List.length store]).
Proof.
  intros [_ Hc Hb _] [[fuel Hwalk] (path & -> & Hpath)] Hlast.
  assert (Hp : p < List.length store).
  { rewrite last_lookup in Hlast. destruct (Hb _ _ Hlast) as (n & Hn & _).
    by eapply lookup_lt_Some. }
  split.
  - exists (S fuel). rewrite length_alter, length_app. simpl.
    rewrite Nat.add_1_r, seq_S. simpl.
    by apply (preorder_link store p
                (createTreeNode e (List.length (0 :: path)) isCur)
                Hc Hp eq_refl path 0 fuel); [..|apply NoDup_seq].
  - exists (path ++ [List.length store]). split; [done|].
    by apply (rightmost_link store p
                (createTreeNode e (List.length (0 :: path)) isCur) Hc Hp).
Qed.

Lemma reify_walk store : ∀ fuel fuel' a t l,
  reify fuel store a = Some t → preorder fuel' store a = Some l →
  Forall2 (λ x a', ∃ n, store !! a' = Some n ∧ describes x n) (nodes t) l.
Proof.
  induction fuel as [|fuel IH]; intros fuel' a t l Ht Hl; [done|].
  apply reify_node in Ht as (n & cs & Hn & Hcs & ->).
  apply preorder_unfold in Hl as (f' & n' & ls & -> & Hn' & Hls & ->).
  simplify_eq. simpl in Hcs |- *. constructor.
  - exists n. by repeat split.
  - apply Forall2_join. clear Hn.
    revert cs ls Hcs Hls. generalize (children n) as chs.
    induction chs as [|c chs IHchs]; intros cs ls Hcs Hls.
    + apply Forall2_nil_inv_l in Hcs as ->.
      apply Forall2_nil_inv_l in Hls as ->. constructor.
    + apply Forall2_cons_inv_l in Hcs as (tc & cs' & Htc & Hcs' & ->).
      apply Forall2_cons_inv_l in Hls as (lc & ls' & Hlc & Hls' & ->).
      simpl. constructor; [by apply (IH f' c)|by apply IHchs].
Qed.

(** The nodes of the linked tree are the nodes of the store, in order. *)
Lemma nodes_of_store store fuel fuel' t :
  reify fuel store 0 = Some t →
  preorder fuel' store 0 = Some (seq 0 (List.length store)) →
  Forall2 describes (nodes t) store.
Proof.
  intros Ht Hl. pose proof (reify_walk store _ _ _ _ _ Ht Hl) as Hwalk.
  apply Forall2_same_length_lookup. split.
  - apply Forall2_length in Hwalk. by rewrite length_seq in Hwalk.
  - intros i x n Hx Hn.
    assert (Hi : seq 0 (List.length store) !! i = Some i).
    { apply lookup_seq. split; [done|]. by eapply lookup_lt_Some. }
    destruct (Forall2_lookup_lr _ _ _ _ _ _ Hwalk Hx Hi) as (n' & Hn' & Hdesc).
    by simplify_eq.
Qed.

(** A list in which at most one position satisfies [P]. *)
Lemma filter_at_most_one {A} (P : A → Prop) `{∀ x, Decision (P x)}
    (l : list A) :
  (∀ i j x y, l !! i = Some x → l !! j = Some y → P x → P y → i = j) →
  List.length (filter P l) ≤ 1.
Proof.
  induction l as [|x l IH]; intros Huniq; [simpl; lia|].
  rewrite filter_cons. destruct (decide (P x)) as [Hx|Hx].
  - assert (Hnone : filter P l = []).
    { destruct (filter P l) as [|y k] eqn:Hf; [done|].
      assert (Hy : y ∈ filter P l) by (rewrite Hf; left).
      apply list_elem_of_filter in Hy as [HPy Hy].
      apply list_elem_of_lookup in Hy as [j Hj].
      by specialize (Huniq 0 (S j) x y eq_refl Hj Hx HPy). }
    rewrite Hnone. simpl. lia.
  - apply IH. intros i j y z Hy Hz HPy HPz.
    by injection (Huniq (S i) (S j) y z Hy Hz HPy HPz).
Qed.

End Walk.


(** * The current marker

    The rebuild never marks two nodes; it marks the node of the last
    entry when the index points at the last entry.  It can leave no
    node marked when the index points elsewhere: a later entry that
    comes back to a node of the branch unmarks that node and the nodes
    above it. *)

Section Marker.
Local Open Scope nat_scope.

Lemma findIndex_Some {A} (p : A → bool) (arr : list A) (k : nat) :
  findIndex p arr = Some k → ∃ x, arr !! k = Some x ∧ p x = true.
Proof.
  revert k; induction arr as [|x rest IH]; intros k; simpl; [done|].
  destruct (p x) eqn:Hpx.
  - intros [= <-]. eauto.
  - destruct (findIndex p rest) as [j|]; simpl; [|done].
    intros [= <-]. by apply IH.
Qed.

(** A node that is marked after the [forEach] was marked before it, or
    is the node at [existingIndex] and the entry is the current one. *)
Lemma forEach_flags_current : ∀ branch store idx existingIndex isCur a n',
  idx + List.length branch = S existingIndex →
  forEach_flags store branch idx existingIndex isCur !! a = Some n' →
  isCurrent n' = true →
  (∃ n, store !! a = Some n ∧ isCurrent n = true)
  ∨ (isCur = true ∧ branch !! (existingIndex - idx) = Some a).
Proof.
  induction branch as [|a0 rest IH];
    intros store idx existingIndex isCur a n' Hlen Hn' Hcur; simpl in *.
  - left. eauto.
  - destruct (IH _ (S idx) existingIndex isCur a n' ltac:(lia) Hn' Hcur) as
      [(n1 & Hn1 & Hcur1)|[HisCur Hrest]].
    + destruct (decide (a = a0)) as [->|Hne].
      * rewrite list_lookup_alter_eq in Hn1.
        destruct (store !! a0) as [n|]; simplify_eq/=.
        apply andb_prop in Hcur1 as [Hidx%bool_decide_eq_true ->].
        right. split; [done|]. subst idx. by rewrite Nat.sub_diag.
      * rewrite list_lookup_alter_ne in Hn1 by done. left. eauto.
    + right. split; [done|].
      assert (existingIndex - S idx < List.length rest)
        by (by eapply lookup_lt_Some).
      replace (existingIndex - idx) with (S (existingIndex - S idx)) by lia.
      done.
Qed.

(** When the entry is the current one, the [forEach] marks the node at
    [existingIndex]. *)
Lemma forEach_flags_sets : ∀ branch store idx existingIndex a,
  idx + List.length branch = S existingIndex →
  branch !! (existingIndex - idx) = Some a →
  a < List.length store →
  ∃ n n', store !! a = Some n
    ∧ forEach_flags store branch idx existingIndex true !! a = Some n'
    ∧ shape n' = shape n ∧ isCurrent n' = true.
Proof.
  induction branch as [|a0 rest IH];
    intros store idx existingIndex a Hlen Ha Hstore; simpl in *; [done|].
  destruct rest as [|a1 rest].
  - assert (idx = existingIndex) as -> by (simpl in Hlen; lia).
    rewrite Nat.sub_diag in Ha. simplify_eq/=.
    destruct (lookup_lt_is_Some_2 store a Hstore) as [n Hn].
    exists n, (set_isCurrent true n). split; [done|].
    rewrite list_lookup_alter_eq, Hn. simpl.
    by rewrite bool_decide_eq_true_2.
  - simpl in Hlen.
    replace (existingIndex - idx) with (S (existingIndex - S idx)) in Ha by lia.
    simpl in Ha.
    destruct (IH (alter (set_isCurrent (bool_decide (idx = existingIndex) && true))
                        a0 store) (S idx) existingIndex a)
      as (n1 & n' & Hn1 & Hn' & Hshape & Hcur);
      [simpl; lia|done|by rewrite length_alter|].
    destruct (decide (a = a0)) as [->|Hne].
    + rewrite list_lookup_alter_eq in Hn1.
      destruct (store !! a0) as [n|]; simpl in Hn1; [|done].
      injection Hn1 as <-. exists n, n'.
      split; [done|]. split; [exact Hn'|]. split; [by rewrite Hshape|done].
    + rewrite list_lookup_alter_ne in Hn1 by done. exists n1, n'.
      split; [done|]. split; [exact Hn'|]. split; done.
Qed.

Lemma flags_inv_init e curIdx :
  flags_inv curIdx 1 [createTreeNode e 0 (bool_decide (curIdx = 0%Z))].
Proof.
  split.
  - intros [|a1] [|a2] n1 n2; simpl; try done.
  - intros [|a] n; simpl; [|done]. intros [= <-]. simpl.
    intros ->%bool_decide_eq_true. lia.
Qed.

Lemma flags_inv_revisit curIdx i store branch existingIndex :
  existingIndex < List.length branch →
  flags_inv curIdx i store →
  flags_inv curIdx (S i)
    (forEach_flags store (take (S existingIndex) branch) 0 existingIndex
       (bool_decide (Z.of_nat i = curIdx))).
Proof.
  intros Hlt [Huniq Hbound].
  assert (Hlen : 0 + List.length (take (S existingIndex) branch)
                 = S existingIndex) by (rewrite length_take_le; lia).
  assert (Hcases : ∀ a n',
    forEach_flags store (take (S existingIndex) branch) 0 existingIndex
      (bool_decide (Z.of_nat i = curIdx)) !! a = Some n' →
    isCurrent n' = true →
    (∃ n, store !! a = Some n ∧ isCurrent n = true
          ∧ (curIdx < Z.of_nat i)%Z)
    ∨ (Z.of_nat i = curIdx
       ∧ take (S existingIndex) branch !! existingIndex = Some a)).
  { intros a n' Hn' Hcur.
    destruct (forEach_flags_current _ _ _ _ _ _ _ Hlen Hn' Hcur)
      as [(n & Hn & Hc)|[HisCur Ha]].
    - left. exists n. eauto.
    - right. apply bool_decide_eq_true in HisCur.
      by rewrite Nat.sub_0_r in Ha. }
  split.
  - intros a1 a2 n1 n2 Hn1 Hn2 Hc1 Hc2.
    destruct (Hcases _ _ Hn1 Hc1) as [(m1 & Hm1 & Hcm1 & Hlt1)|[Hi1 Ha1]];
      destruct (Hcases _ _ Hn2 Hc2) as [(m2 & Hm2 & Hcm2 & Hlt2)|[Hi2 Ha2]];
      try lia.
    + by apply (Huniq a1 a2 m1 m2).
    + congruence.
  - intros a n' Hn' Hcur.
    destruct (Hcases _ _ Hn' Hcur) as [(_ & _ & _ & ?)|[? _]]; lia.
Qed.

Lemma flags_inv_append curIdx i store p e lvl :
  p < List.length store →
  flags_inv curIdx i store →
  flags_inv curIdx (S i)
    (alter (push_child (List.length store)) p
       (store ++ [createTreeNode e lvl (bool_decide (Z.of_nat i = curIdx))])).
Proof.
  intros Hp [Huniq Hbound].
  assert (Hcases : ∀ a m,
    alter (push_child (List.length store)) p
      (store ++ [createTreeNode e lvl (bool_decide (Z.of_nat i = curIdx))])
      !! a = Some m →
    isCurrent m = true →
    (∃ n, store !! a = Some n ∧ isCurrent n = true
          ∧ (curIdx < Z.of_nat i)%Z)
    ∨ (Z.of_nat i = curIdx ∧ a = List.length store)).
  { intros a m Hm Hcur.
    apply lookup_linked in Hm as [[-> ->]|(n & Hn & _ & _ & Hc & _)]; [| |done].
    - right. simpl in Hcur. by apply bool_decide_eq_true in Hcur.
    - left. exists n. rewrite Hc in Hcur. eauto. }
  split.
  - intros a1 a2 n1 n2 Hn1 Hn2 Hc1 Hc2.
    destruct (Hcases _ _ Hn1 Hc1) as [(m1 & Hm1 & Hcm1 & Hlt1)|[Hi1 Ha1]];
      destruct (Hcases _ _ Hn2 Hc2) as [(m2 & Hm2 & Hcm2 & Hlt2)|[Hi2 Ha2]];
      try lia.
    by apply (Huniq a1 a2 m1 m2).
  - intros a n' Hn' Hcur.
    destruct (Hcases _ _ Hn' Hcur) as [(_ & _ & _ & ?)|[? _]]; lia.
Qed.

(** The loop as a whole: it ends, its store is linked as a tree that
    the walk lists in order, and at most one node is marked. *)
Lemma buildLoop_all curIdx entries : ∀ i store branch,
  build_inv store branch → order_inv store branch →
  flags_inv curIdx i store →
  ∃ store' fuel,
    buildLoop curIdx i entries store branch = Some store'
    ∧ store_inv store'
    ∧ preorder fuel store' 0 = Some (seq 0 (List.length store'))
    ∧ flags_inv curIdx (i + List.length entries) store'.
Proof.
  induction entries as [|e rest IH]; intros i store branch Hinv Hord Hflags;
    simpl.
  - destruct Hord as [[fuel Hwalk] _]. rewrite Nat.add_0_r.
    eauto 10 using build_inv_store.
  - replace (i + S (List.length rest)) with (S i + List.length rest) by lia.
    destruct (findIndex (url_matches store e) branch) as [existingIndex|]
      eqn:Hfind.
    + rewrite slice0_succ. apply IH.
      * by apply build_inv_revisit.
      * by apply order_inv_revisit.
      * apply flags_inv_revisit; [|done]. by eapply findIndex_lt.
    + destruct (last branch) as [p|] eqn:Hlast; simpl.
      * apply IH; [by apply build_inv_append|by apply order_inv_append|].
        apply flags_inv_append; [|done].
        rewrite last_lookup in Hlast.
        destruct (inv_branch _ _ Hinv _ _ Hlast) as (n & Hn & _).
        by eapply lookup_lt_Some.
      * rewrite last_lookup in Hlast. destruct Hinv as [Hr _ _ _].
        apply lookup_lt_Some in Hr. apply lookup_ge_None in Hlast. lia.
Qed.

(** When the index points at the last entry, the loop ends with the
    node of that entry marked. *)
Lemma buildLoop_last curIdx entries : ∀ i store branch,
  build_inv store branch →
  entries ≠ [] →
  curIdx = (Z.of_nat i + Z.of_nat (List.length entries) - 1)%Z →
  ∃ store' a n,
    buildLoop curIdx i entries store branch = Some store'
    ∧ store' !! a = Some n ∧ isCurrent n = true
    ∧ Some (url (entry n)) = url <$> last entries.
Proof.
  induction entries as [|e rest IH]; intros i store branch Hinv Hne Hcur;
    [done|].
  destruct rest as [|e2 rest].
  - (* the last entry: it is the current one *)
    assert (HisCur : bool_decide (Z.of_nat i = curIdx) = true)
      by (apply bool_decide_eq_true; simpl in Hcur; lia).
    simpl. rewrite HisCur.
    destruct (findIndex (url_matches store e) branch) as [existingIndex|]
      eqn:Hfind.
    + rewrite slice0_succ.
      destruct (findIndex_Some _ _ _ Hfind) as (a & Ha & Hurl).
      unfold url_matches in Hurl.
      destruct (store !! a) as [n0|] eqn:Hn0; [|done].
      apply String.eqb_eq in Hurl.
      destruct (forEach_flags_sets (take (S existingIndex) branch) store 0
                  existingIndex a) as (n & n' & Hn & Hn' & Hshape & Hc).
      * rewrite length_take_le; [lia|].
        apply findIndex_lt in Hfind. lia.
      * rewrite Nat.sub_0_r. by rewrite lookup_take_lt by lia.
      * by eapply lookup_lt_Some.
      * eexists _, a, n'. split; [reflexivity|]. split; [exact Hn'|].
        split; [done|]. simpl. simplify_eq. by rewrite Hshape, Hurl.
    + destruct (last branch) as [p|] eqn:Hlast; simpl.
      * eexists _, (List.length store),
          (createTreeNode e (List.length branch) true). split; [done|].
        assert (Hp : p < List.length store).
        { rewrite last_lookup in Hlast.
          destruct (inv_branch _ _ Hinv _ _ Hlast) as (n & Hn & _).
          by eapply lookup_lt_Some. }
        split; [|split; reflexivity].
        rewrite list_lookup_alter_ne by lia. by apply list_lookup_middle.
      * rewrite last_lookup in Hlast. destruct Hinv as [Hr _ _ _].
        apply lookup_lt_Some in Hr. apply lookup_ge_None in Hlast. lia.
  - (* an earlier entry: go on *)
    assert (Hnext : curIdx
              = (Z.of_nat (S i) + Z.of_nat (List.length (e2 :: rest)) - 1)%Z)
      by (simpl in Hcur |- *; lia).
    change (last (e :: e2 :: rest)) with (last (e2 :: rest)).
    cbn [buildLoop].
    destruct (findIndex (url_matches store e) branch) as [existingIndex|].
    + rewrite slice0_succ. apply IH; [|done..]. by apply build_inv_revisit.
    + destruct (last branch) as [p|] eqn:Hlast; cbn [mbind option_bind].
      * apply IH; [|done..]. by apply build_inv_append.
      * rewrite last_lookup in Hlast. destruct Hinv as [Hr _ _ _].
        apply lookup_lt_Some in Hr. apply lookup_ge_None in Hlast. lia.
Qed.

Lemma buildTree_nodes rootEntry rest curIdx :
  ∃ store root,
    buildLoop curIdx 1 rest
      [createTreeNode rootEntry 0 (bool_decide (curIdx = 0%Z))] [0]
      = Some store
    ∧ buildTree rootEntry rest curIdx = Some root
    ∧ Forall2 describes (nodes root) store
    ∧ flags_inv curIdx (1 + List.length rest) store.
Proof.
  destruct (buildLoop_all curIdx rest 1 _ _
              (build_inv_init rootEntry (bool_decide (curIdx = 0%Z)))
              (order_inv_init rootEntry (bool_decide (curIdx = 0%Z)))
              (flags_inv_init rootEntry curIdx))
    as (store & fuel & Hloop & Hinv & Hwalk & Hflags).
  assert (Hlen : 0 < List.length store).
  { destruct Hinv as [(n & Hn & _) _ _]. by eapply lookup_lt_Some. }
  destruct (reify_total store Hinv (List.length store) 0 Hlen) as [root Hroot];
    [lia|].
  exists store, root. split; [done|]. split.
  - unfold buildTree. by rewrite Hloop.
  - split; [by eapply nodes_of_store|done].
Qed.

(** The rebuilt tree never has two nodes marked current. *)
Lemma at_most_one_current_node rootEntry rest curIdx :
  ∃ root, buildTree rootEntry rest curIdx = Some root
          ∧ List.length (currentNodes root) ≤ 1.
Proof.
  destruct (buildTree_nodes rootEntry rest curIdx)
    as (store & root & _ & Hroot & Hnodes & [Huniq _]).
  exists root. split; [done|]. apply filter_at_most_one.
  intros i j x y Hx Hy Hcx Hcy.
  destruct (Forall2_lookup_l _ _ _ _ _ Hnodes Hx) as (n & Hn & _ & _ & Hnx).
  destruct (Forall2_lookup_l _ _ _ _ _ Hnodes Hy) as (m & Hm & _ & _ & Hmy).
  apply (Huniq i j n m); congruence.
Qed.

(** When the index points at the last entry of the log, as it does
    after every new navigation, exactly one node is marked, and it is
    the node of that entry's page. *)
Lemma last_entry_is_current rootEntry rest :
  ∃ root x,
    buildTree rootEntry rest (Z.of_nat (List.length rest)) = Some root
    ∧ currentNodes root = [x]
    ∧ Some (url (node_entry x)) = url <$> last (rootEntry :: rest).
Proof.
  destruct rest as [|e rest]; [by eexists _, _|].
  set (entries := e :: rest).
  destruct (buildTree_nodes rootEntry entries (Z.of_nat (List.length entries)))
    as (store & root & Hloop & Hroot & Hnodes & [Huniq _]).
  destruct (buildLoop_last (Z.of_nat (List.length entries)) entries 1 _ _
              (build_inv_init rootEntry
                 (bool_decide (Z.of_nat (List.length entries) = 0%Z))))
    as (store' & a & n & Hloop' & Hn & Hcur & Hurl); [done|lia|].
  assert (store' = store) as -> by congruence.
  destruct (Forall2_lookup_r _ _ _ _ _ Hnodes Hn) as (x & Hx & He & _ & Hc).
  assert (Hin : x ∈ currentNodes root).
  { apply list_elem_of_filter. split; [congruence|].
    apply list_elem_of_lookup. eauto. }
  assert (Hle : List.length (currentNodes root) ≤ 1).
  { destruct (at_most_one_current_node rootEntry entries
                (Z.of_nat (List.length entries))) as (root' & Hroot' & Hle).
    by simplify_eq. }
  exists root, x. split; [done|]. split.
  - destruct (currentNodes root) as [|y [|z k]]; simpl in Hle; [|..|lia].
    + by apply elem_of_nil in Hin.
    + by apply list_elem_of_singleton in Hin as ->.
  - rewrite He. exact Hurl.
Qed.

End Marker.

(** * The claims *)

Section Claims.
Context `{Platform}.

Lemma refresh_excludes_back_forward th u historyInfo :
  log_inv th → spec_Refresh th u = true →
  spec_Back th u historyInfo = false ∧ spec_Forward th u historyInfo = false.
Proof.
  intros [[Hlo Hhi] Hdup]. unfold spec_Refresh, spec_Back, spec_Forward, url_at.
  destruct (index_valid (sessionHistory th) (currentIndex th)) as [e He];
    [done|].
  rewrite He. intros Hu%String.eqb_eq.
  apply index_Some in He as [_ He]. split.
  - destruct (Z.ltb_spec 0 (currentIndex th)); [|done].
    destruct (index (sessionHistory th) (currentIndex th - 1)) as [p|] eqn:Hp;
      [|done].
    apply index_Some in Hp as [_ Hp].
    assert (Hpe : url p ≠ url e).
    { apply (Hdup (Z.to_nat (currentIndex th - 1))); [done|].
      by replace (S (Z.to_nat (currentIndex th - 1)))
           with (Z.to_nat (currentIndex th)) by lia. }
    assert (Hpu : String.eqb (url p) u = false)
      by (apply String.eqb_neq; congruence).
    simpl. by rewrite Hpu.
  - destruct (Z.ltb_spec (currentIndex th)
                (Z.of_nat (List.length (sessionHistory th)) - 1)); [|done].
    destruct (index (sessionHistory th) (currentIndex th + 1)) as [n|] eqn:Hn;
      [|done].
    apply index_Some in Hn as [_ Hn].
    assert (Hen : url e ≠ url n).
    { apply (Hdup (Z.to_nat (currentIndex th))); [done|].
      by replace (S (Z.to_nat (currentIndex th)))
           with (Z.to_nat (currentIndex th + 1)) by lia. }
    assert (Hnu : String.eqb (url n) u = false)
      by (apply String.eqb_neq; congruence).
    simpl. by rewrite Hnu.
Qed.

(** On a log without equal neighbours the order of the checks does not
    matter: the code's back-first order and the specification's
    refresh-first order give the same log. *)
Lemma logAfterUpdate_spec_order th u ttl ty historyInfo now :
  log_inv th →
  logAfterUpdate th u ttl ty historyInfo now
  = spec_logAfterUpdate th u ttl ty historyInfo now.
Proof.
  intros Hinv. unfold logAfterUpdate, spec_logAfterUpdate.
  destruct (spec_Refresh th u) eqn:Hrefresh.
  - destruct (refresh_excludes_back_forward th u historyInfo Hinv Hrefresh)
      as [-> ->]. done.
  - done.
Qed.

(** C2, as amended.  On a log with a valid index and no two neighbours
    of equal url, an update whose url is that of the current entry
    leaves the log alone whatever the back/forward flags say: the
    entries and the index stay, [lastUpdated] becomes [now], the tree is
    the rebuild of the unchanged log, and nothing else in the tracker
    moves. *)
Theorem refresh_leaves_log tr tabId th u ttl ty historyInfo now :
  tabHistories tr !! tabId = Some th →
  valid_index th →
  no_adjacent_dup (sessionHistory th) →
  spec_Refresh th u = true →
  ∃ root, rebuiltTree th = Some root ∧
    updateTabHistory tr tabId u ttl ty historyInfo now
    = Some (set_tabHistories
              (<[tabId := set_tree root (set_lastUpdated now th)]>
                 (tabHistories tr)) tr).
Proof.
  intros Hth Hvalid Hdup Hrefresh.
  destruct (updateTabHistory_tracked tr tabId th u ttl ty historyInfo now
              Hth Hvalid) as (root & Hroot & Hup).
  rewrite logAfterUpdate_spec_order in Hroot, Hup by done.
  unfold spec_logAfterUpdate in Hroot, Hup. rewrite Hrefresh in Hroot, Hup.
  eauto.
Qed.

(** C3.  From the log [a; b; c] at index 2, an update to the url of [b]
    with [canGoBack] set moves the index to 1, and then an update to the
    url of [c] with [canGoForward] set moves it back to 2; the entries
    are the same three after each step.  ([a] and [c] are different
    pages.) *)
Theorem back_forward_round_trip tr tabId th a b c
    ttl1 ty1 info1 now1 ttl2 ty2 info2 now2 :
  tabHistories tr !! tabId = Some th →
  sessionHistory th = [a; b; c] →
  currentIndex th = 2 →
  url a ≠ url c →
  hi_canGoBack info1 = Some true →
  hi_canGoForward info2 = Some true →
  ∃ tr1 th1 tr2 th2,
    updateTabHistory tr tabId (url b) ttl1 ty1 info1 now1 = Some tr1
    ∧ tabHistories tr1 !! tabId = Some th1
    ∧ sessionHistory th1 = [a; b; c] ∧ currentIndex th1 = 1
    ∧ updateTabHistory tr1 tabId (url c) ttl2 ty2 info2 now2 = Some tr2
    ∧ tabHistories tr2 !! tabId = Some th2
    ∧ sessionHistory th2 = [a; b; c] ∧ currentIndex th2 = 2.
Proof.
  intros Hth Hlog Hcur Hac Hback Hfwd.
  destruct (updateTabHistory_tracked tr tabId th (url b) ttl1 ty1 info1 now1 Hth)
    as (root1 & _ & Hup1).
  { unfold valid_index. rewrite Hlog, Hcur. simpl. lia. }
  assert (E1 : logAfterUpdate th (url b) ttl1 ty1 info1 now1
               = set_currentIndex 1 th).
  { unfold logAfterUpdate, spec_Back, url_at. rewrite Hlog, Hcur, Hback. simpl.
    by rewrite String.eqb_refl. }
  rewrite E1 in Hup1.
  set (th1 := set_tree root1 (set_lastUpdated now1 (set_currentIndex 1 th))) in *.
  set (tr1 := set_tabHistories (<[tabId := th1]> (tabHistories tr)) tr) in *.
  assert (Hth1 : tabHistories tr1 !! tabId = Some th1) by apply lookup_insert_eq.
  destruct (updateTabHistory_tracked tr1 tabId th1 (url c) ttl2 ty2 info2 now2 Hth1)
    as (root2 & _ & Hup2).
  { unfold valid_index. simpl. rewrite Hlog. simpl. lia. }
  assert (E2 : logAfterUpdate th1 (url c) ttl2 ty2 info2 now2
               = set_currentIndex 2 th1).
  { unfold logAfterUpdate, spec_Back, spec_Forward, url_at. simpl.
    rewrite Hlog, Hfwd. simpl.
    apply String.eqb_neq in Hac. rewrite Hac. simpl.
    by rewrite String.eqb_refl. }
  rewrite E2 in Hup2.
  eexists tr1, th1, _, _.
  split; [exact Hup1|]. split; [exact Hth1|]. split; [exact Hlog|].
  split; [done|]. split; [exact Hup2|].
  split; [apply lookup_insert_eq|]. split; [exact Hlog|done].
Qed.

(** C4.  An update that is neither a refresh nor a back nor a forward
    step keeps the entries up to and including the current one, appends
    one entry made from the update's url, title, kind and navigation
    info, and points the index at it (the last position). *)
Theorem new_navigation_truncates_and_appends tr tabId th u ttl ty
    historyInfo now :
  tabHistories tr !! tabId = Some th →
  valid_index th →
  spec_Refresh th u = false →
  spec_Back th u historyInfo = false →
  spec_Forward th u historyInfo = false →
  ∃ tr' th',
    updateTabHistory tr tabId u ttl ty historyInfo now = Some tr'
    ∧ tabHistories tr' !! tabId = Some th'
    ∧ sessionHistory th'
      = take (S (Z.to_nat (currentIndex th))) (sessionHistory th)
        ++ [createHistoryEntry u ttl ty now historyInfo now]
    ∧ currentIndex th' = Z.of_nat (List.length (sessionHistory th')) - 1
    ∧ currentIndex th' = currentIndex th + 1.
Proof.
  intros Hth Hvalid Hrefresh Hback Hfwd.
  destruct (updateTabHistory_tracked tr tabId th u ttl ty historyInfo now
              Hth Hvalid) as (root & _ & Hup).
  unfold logAfterUpdate in Hup. rewrite Hback, Hfwd, Hrefresh in Hup.
  eexists _, _. split; [exact Hup|]. split; [apply lookup_insert_eq|].
  simpl. split; [done|]. split; [done|].
  destruct Hvalid as [Hlo Hhi].
  rewrite length_app, length_take_le by lia. simpl. lia.
Qed.

(** C5.  The rebuild is a function of the entries and the index alone,
    and running it again on its own result changes nothing: for a
    non-empty log it produces a tree [root]; any record with the same
    entries and index, in any tracker, gets that same tree; and a second
    rebuild of the rebuilt tracker returns it as it is. *)
Theorem rebuild_idempotent tr tabId th :
  tabHistories tr !! tabId = Some th →
  sessionHistory th ≠ [] →
  ∃ root tr1,
    buildTreeFromSessionHistory tr tabId = Some tr1
    ∧ tabHistories tr1 !! tabId = Some (set_tree root th)
    ∧ buildTreeFromSessionHistory tr1 tabId = Some tr1
    ∧ ∀ tr' tabId' th',
        tabHistories tr' !! tabId' = Some th' →
        sessionHistory th' = sessionHistory th →
        currentIndex th' = currentIndex th →
        ∃ tr1', buildTreeFromSessionHistory tr' tabId' = Some tr1'
                ∧ tabHistories tr1' !! tabId' = Some (set_tree root th').
Proof.
  intros Hth Hne.
  destruct (buildTreeFromSessionHistory_tracked tr tabId th Hth Hne)
    as (root & Hroot & Hbuild).
  assert (Hsame : ∀ tr' tabId' th',
            tabHistories tr' !! tabId' = Some th' →
            sessionHistory th' = sessionHistory th →
            currentIndex th' = currentIndex th →
            buildTreeFromSessionHistory tr' tabId'
            = Some (set_tabHistories
                      (<[tabId' := set_tree root th']> (tabHistories tr')) tr')).
  { intros tr' tabId' th' Hth' Hlog Hcur.
    destruct (buildTreeFromSessionHistory_tracked tr' tabId' th' Hth')
      as (root' & Hroot' & ->); [by rewrite Hlog|].
    unfold rebuiltTree in Hroot, Hroot'. rewrite Hlog, Hcur in Hroot'.
    by simplify_eq. }
  eexists root, _. split; [exact Hbuild|].
  split; [apply lookup_insert_eq|]. split.
  - rewrite (Hsame _ tabId (set_tree root th)); [|apply lookup_insert_eq|done..].
    f_equal. unfold set_tabHistories. simpl. by rewrite insert_insert_eq.
  - intros tr' tabId' th' Hth' Hlog Hcur.
    rewrite (Hsame tr' tabId' th') by done.
    eexists. split; [done|]. apply lookup_insert_eq.
Qed.

(** C10.  In the tree that a rebuild assigns, the [level] of every node
    is the number of links between it and the root: a node found [d]
    links below the root has level [d]. *)
Theorem level_is_distance_from_root tr tabId th :
  tabHistories tr !! tabId = Some th →
  sessionHistory th ≠ [] →
  ∃ tr' th',
    buildTreeFromSessionHistory tr tabId = Some tr'
    ∧ tabHistories tr' !! tabId = Some th'
    ∧ ∀ d x, occurs_at (tree th') d x → node_level x = d.
Proof.
  intros Hth Hne.
  destruct (buildTreeFromSessionHistory_tracked tr tabId th Hth Hne)
    as (root & Hroot & Hbuild).
  eexists _, _. split; [exact Hbuild|]. split; [apply lookup_insert_eq|].
  simpl. unfold rebuiltTree in Hroot.
  destruct (sessionHistory th) as [|rootEntry rest]; [done|].
  destruct (buildTree_store rootEntry rest (currentIndex th))
    as (store & root' & _ & Hinv & Hreify & Hroot').
  assert (root' = root) as -> by congruence.
  destruct (sinv_root _ Hinv) as (n & Hn & Hlevel).
  intros d x Hocc.
  rewrite (reify_levels store Hinv _ 0%nat n root Hn Hreify d x Hocc). lia.
Qed.

(** C6.  A log that starts with one entry and index 0 stays well formed
    under any run of updates: every update of the run succeeds, and at
    the end the entries are not empty and the index is within them. *)
Theorem wellformed_preserved tr tabId th ups :
  tabHistories tr !! tabId = Some th →
  List.length (sessionHistory th) = 1%nat →
  currentIndex th = 0 →
  ∃ tr' th',
    updates tr tabId ups = Some tr'
    ∧ tabHistories tr' !! tabId = Some th'
    ∧ sessionHistory th' ≠ []
    ∧ 0 ≤ currentIndex th' < Z.of_nat (List.length (sessionHistory th')).
Proof.
  intros Hth Hlen Hcur.
  destruct (updates_keep valid_index tabId ups) with (tr := tr)
    as (tr' & Hrun & Hvalid & Hsome).
  - done.
  - done.
  - intros. apply newTabHistory_inv.
  - intros. by apply logAfterUpdate_valid.
  - intros th0 Hth0. simplify_eq. unfold valid_index. lia.
  - destruct Hsome as [th' Hth']; [left; eauto|].
    exists tr', th'. split; [done|]. split; [done|].
    specialize (Hvalid th' Hth'). split; [|exact Hvalid].
    unfold valid_index in Hvalid. destruct (sessionHistory th'); simpl in *;
      [lia|done].
Qed.

(** C9.  In the log of a tab that was untracked, or freshly initialised,
    before a run of updates, no two neighbours have the same url at the
    end of the run; and on such a log the code's order of checks (back,
    forward, refresh) and the specification's (refresh, back, forward)
    lead to the same log, whatever the next update is. *)
Theorem no_adjacent_duplicates tr tabId ups :
  (∀ th, tabHistories tr !! tabId = Some th →
         List.length (sessionHistory th) = 1%nat ∧ currentIndex th = 0) →
  ∃ tr',
    updates tr tabId ups = Some tr'
    ∧ ∀ th', tabHistories tr' !! tabId = Some th' →
        no_adjacent_dup (sessionHistory th')
        ∧ ∀ u ttl ty historyInfo now,
            logAfterUpdate th' u ttl ty historyInfo now
            = spec_logAfterUpdate th' u ttl ty historyInfo now.
Proof.
  intros Hstart.
  destruct (updates_keep log_inv tabId ups) with (tr := tr)
    as (tr' & Hrun & Hinv & _).
  - by intros th [? _].
  - done.
  - intros. apply newTabHistory_inv.
  - intros. by apply logAfterUpdate_inv.
  - intros th Hth. destruct (Hstart th Hth) as [Hlen Hcur].
    split; [unfold valid_index; lia|].
    intros k a b Ha Hb. apply lookup_lt_Some in Hb. lia.
  - exists tr'. split; [done|]. intros th' Hth'. specialize (Hinv th' Hth').
    split; [apply Hinv|]. intros. by apply logAfterUpdate_spec_order.
Qed.

(** C7.  Closing a tracked tab takes its record out of the active map
    and puts it, with the same entries, index and tree, into the closed
    map under the same id, marked closed; the other records of both maps
    stay.  The command [clearClosedTabs] empties the closed map of any
    tracker and leaves its active map and creation times as they are. *)
Theorem closed_tab_retention tr tabId th now :
  tabHistories tr !! tabId = Some th →
  let tr' := handleTabClose tr tabId now in
  tabHistories tr' !! tabId = None
  ∧ (∀ other, other ≠ tabId →
       tabHistories tr' !! other = tabHistories tr !! other
       ∧ closedTabHistories tr' !! other = closedTabHistories tr !! other)
  ∧ (∃ closed,
       closedTabHistories tr' !! tabId = Some closed
       ∧ sessionHistory closed = sessionHistory th
       ∧ currentIndex closed = currentIndex th
       ∧ tree closed = tree th
       ∧ lastUpdated closed = lastUpdated th
       ∧ isClosed closed = true
       ∧ closedAt closed = Some now)
  ∧ (∀ tr0 t, ∃ tr0',
       handleMessage tr0 "clearClosedTabs" t = Some tr0'
       ∧ closedTabHistories tr0' = ∅
       ∧ tabHistories tr0' = tabHistories tr0
       ∧ tabCreationTimes tr0' = tabCreationTimes tr0).
Proof.
  intros Hth tr'. unfold tr', handleTabClose. rewrite Hth. simpl.
  split; [apply lookup_delete_eq|]. split.
  - intros other Hne. by rewrite lookup_delete_ne, lookup_insert_ne.
  - split.
    + eexists. split; [apply lookup_insert_eq|]. done.
    + intros tr0 t. eexists. split; [reflexivity|]. done.
Qed.

(** C8, as amended.  An entry created with an absent or empty title has
    for title the hostname of its url when the url parses, and the url
    string itself when it does not. *)
Theorem title_falls_back u ttl ty ts historyInfo now :
  truthy_str ttl = false →
  title (createHistoryEntry u ttl ty ts historyInfo now)
  = match URL_hostname u with
    | Some hostname => hostname
    | None => u
    end.
Proof.
  intros Hfalsy. unfold createHistoryEntry. simpl. rewrite Hfalsy.
  by destruct ttl.
Qed.

End Claims.

(** C1.  The log of this run is valid (four entries, index 0), yet its
    rebuilt tree has no node with [isCurrent] set: the user went from A
    to B to C, followed a link to A, and pressed back three times; the
    rebuild marks the root at its first visit and unmarks it when it
    meets the second visit of A. *)
Theorem current_marker_lost_after_back :
  Sample.observe
    (updates (H := browser) emptyTracker Sample.tab Sample.run_back_to_start)
  = Some ([Sample.urlA; Sample.urlB; Sample.urlC; Sample.urlA], 0, []).
Proof. vm_compute. reflexivity. Qed.

(** * The claims on the sample runs *)

Section OnSamples.
Import Sample.
Local Existing Instance browser.

(** C2 does not hold of every log with a valid index: in the log
    [A; A'] of two visits of one page, at index 1, an update to that
    page's url with [canGoBack] set has the url of the current entry,
    and the tracker takes it for a back step: the index goes from 1
    to 0. *)
Lemma refresh_after_equal_neighbour_goes_back :
  let th := record [A; A'] 1 in
  tabHistories (tracking [A; A'] 1) !! tab = Some th
  ∧ valid_index th
  ∧ spec_Refresh th urlA = true
  ∧ currentIndex th = 1
  ∧ observe (updateTabHistory (tracking [A; A'] 1) tab urlA (Some "A")
               "navigation" info 99)
    = Some ([urlA; urlA], 0, []).
Proof.
  repeat split; try (vm_compute; reflexivity); vm_compute; congruence.
Qed.

Lemma refresh_leaves_log_witness :
  let th := record [A; B] 1 in
  ∃ root, rebuiltTree th = Some root ∧
    updateTabHistory (tracking [A; B] 1) tab urlB (Some "B") "navigation" info 99
    = Some (set_tabHistories
              (<[tab := set_tree root (set_lastUpdated 99 th)]>
                 (tabHistories (tracking [A; B] 1))) (tracking [A; B] 1)).
Proof.
  apply (refresh_leaves_log (tracking [A; B] 1) tab (record [A; B] 1) urlB).
  - reflexivity.
  - unfold valid_index. simpl. lia.
  - apply adjacent_distinct_spec. reflexivity.
  - reflexivity.
Defined.

Lemma back_forward_round_trip_witness :
  ∃ tr1 th1 tr2 th2,
    updateTabHistory (tracking [A; B; C] 2) tab (url B) None "navigation"
      info 60 = Some tr1
    ∧ tabHistories tr1 !! tab = Some th1
    ∧ sessionHistory th1 = [A; B; C] ∧ currentIndex th1 = 1
    ∧ updateTabHistory tr1 tab (url C) None "navigation" info 70 = Some tr2
    ∧ tabHistories tr2 !! tab = Some th2
    ∧ sessionHistory th2 = [A; B; C] ∧ currentIndex th2 = 2.
Proof.
  apply (back_forward_round_trip (tracking [A; B; C] 2) tab
           (record [A; B; C] 2) A B C).
  - reflexivity.
  - reflexivity.
  - reflexivity.
  - vm_compute. discriminate.
  - reflexivity.
  - reflexivity.
Defined.

(** The example of C4: from [A; B; C] at index 1, a navigation to D
    gives [A; B; D] at index 2. *)
Lemma new_navigation_truncates_and_appends_witness :
  ∃ tr' th',
    updateTabHistory (tracking [A; B; C] 1) tab urlD None "navigation" info 40
      = Some tr'
    ∧ tabHistories tr' !! tab = Some th'
    ∧ sessionHistory th' = take 2 [A; B; C] ++ [D]
    ∧ currentIndex th' = Z.of_nat (List.length (sessionHistory th')) - 1
    ∧ currentIndex th' = 1 + 1.
Proof.
  apply (new_navigation_truncates_and_appends (tracking [A; B; C] 1) tab
           (record [A; B; C] 1) urlD None "navigation" info 40).
  - reflexivity.
  - unfold valid_index. simpl. lia.
  - reflexivity.
  - reflexivity.
  - reflexivity.
Defined.

Lemma rebuild_idempotent_witness :
  ∃ root tr1,
    buildTreeFromSessionHistory (tracking [A; B; C; A'] 3) tab = Some tr1
    ∧ tabHistories tr1 !! tab = Some (set_tree root (record [A; B; C; A'] 3))
    ∧ buildTreeFromSessionHistory tr1 tab = Some tr1
    ∧ ∀ tr' tabId' th',
        tabHistories tr' !! tabId' = Some th' →
        sessionHistory th' = [A; B; C; A'] →
        currentIndex th' = 3 →
        ∃ tr1', buildTreeFromSessionHistory tr' tabId' = Some tr1'
                ∧ tabHistories tr1' !! tabId' = Some (set_tree root th').
Proof.
  apply (rebuild_idempotent (tracking [A; B; C; A'] 3) tab
           (record [A; B; C; A'] 3)).
  - reflexivity.
  - discriminate.
Defined.

Lemma level_is_distance_from_root_witness :
  ∃ tr' th',
    buildTreeFromSessionHistory (tracking [A; B; C; B; D] 4) tab = Some tr'
    ∧ tabHistories tr' !! tab = Some th'
    ∧ ∀ d x, occurs_at (tree th') d x → node_level x = d.
Proof.
  apply (level_is_distance_from_root (tracking [A; B; C; B; D] 4) tab
           (record [A; B; C; B; D] 4)).
  - reflexivity.
  - discriminate.
Defined.

Lemma wellformed_preserved_witness :
  ∃ tr' th',
    updates (tracking [A] 0) tab run_back_to_start = Some tr'
    ∧ tabHistories tr' !! tab = Some th'
    ∧ sessionHistory th' ≠ []
    ∧ 0 ≤ currentIndex th' < Z.of_nat (List.length (sessionHistory th')).
Proof.
  apply (wellformed_preserved (tracking [A] 0) tab (record [A] 0)).
  - reflexivity.
  - reflexivity.
  - reflexivity.
Defined.

Lemma no_adjacent_duplicates_witness :
  ∃ tr',
    updates (tracking [A] 0) tab run_back_to_start = Some tr'
    ∧ ∀ th', tabHistories tr' !! tab = Some th' →
        no_adjacent_dup (sessionHistory th')
        ∧ ∀ u ttl ty historyInfo now,
            logAfterUpdate th' u ttl ty historyInfo now
            = spec_logAfterUpdate th' u ttl ty historyInfo now.
Proof.
  apply (no_adjacent_duplicates (tracking [A] 0) tab run_back_to_start).
  intros th Hth. vm_compute in Hth. injection Hth as <-.
  split; reflexivity.
Defined.

Lemma closed_tab_retention_witness :
  let tr := tracking [A; B; C] 1 in
  let tr' := handleTabClose tr tab 80 in
  tabHistories tr' !! tab = None
  ∧ (∀ other, other ≠ tab →
       tabHistories tr' !! other = tabHistories tr !! other
       ∧ closedTabHistories tr' !! other = closedTabHistories tr !! other)
  ∧ (∃ closed,
       closedTabHistories tr' !! tab = Some closed
       ∧ sessionHistory closed = [A; B; C]
       ∧ currentIndex closed = 1
       ∧ tree closed = tree (record [A; B; C] 1)
       ∧ lastUpdated closed = 50
       ∧ isClosed closed = true
       ∧ closedAt closed = Some 80)
  ∧ (∀ tr0 t, ∃ tr0',
       handleMessage tr0 "clearClosedTabs" t = Some tr0'
       ∧ closedTabHistories tr0' = ∅
       ∧ tabHistories tr0' = tabHistories tr0
       ∧ tabCreationTimes tr0' = tabCreationTimes tr0).
Proof.
  apply (closed_tab_retention (tracking [A; B; C] 1) tab (record [A; B; C] 1) 80).
  reflexivity.
Defined.

(** C8 does not hold of every url that the tracker lets in: ["http:"]
    passes [isValidUrl], the [URL] constructor rejects it, and the
    title of an entry made for it without a title is the url itself,
    which is not the hostname of anything. *)
Lemma title_of_unparsable_url :
  isValidUrl (Some "http:") = true
  ∧ truthy_str None = false
  ∧ URL_hostname "http:" = None
  ∧ title (createHistoryEntry "http:" None "navigation" 10 defaultInfo 10)
    = "http:"
  ∧ URL_hostname "http:"
    ≠ Some (title (createHistoryEntry "http:" None "navigation" 10 defaultInfo 10)).
Proof. repeat split; try reflexivity. discriminate. Qed.

Lemma title_falls_back_witness :
  truthy_str (Some "") = false
  ∧ title (createHistoryEntry urlB (Some "") "navigation" 20 info 20)
    = "b.example".
Proof.
  split; [reflexivity|].
  exact (title_falls_back urlB (Some "") "navigation" 20 info 20 eq_refl).
Defined.

End OnSamples.

(** * The queries

    What the popup is told: the list of [getAllTabTrees], the numbers of
    ['getStatus'], the debug view; and what the popup makes of it. *)

Section Sorting.
Context {A : Type} (key : A → Z).

Local Abbreviation later_first := (λ a b : A, key b ≤ key a).
Local Abbreviation by_key := (λ a b : A, key b - key a).

Lemma sort_insert_perm x (l : list A) : sort_insert by_key x l ≡ₚ x :: l.
Proof.
  induction l as [|y l IH]; simpl; [done|].
  destruct (0 <? key y - key x); [|done].
  rewrite IH. apply Permutation_swap.
Qed.

Lemma sort_perm (l : list A) : sort by_key l ≡ₚ l.
Proof.
  induction l as [|x l IH]; simpl; [done|].
  unfold sort in *. simpl. by rewrite sort_insert_perm, IH.
Qed.

Lemma sort_insert_sorted x (l : list A) :
  StronglySorted later_first l →
  StronglySorted later_first (sort_insert by_key x l).
Proof.
  induction 1 as [|y l Hl IH Hy]; simpl.
  - repeat constructor.
  - destruct (Z.ltb_spec 0 (key y - key x)).
    + constructor; [done|].
      rewrite Forall_forall. intros z Hz.
      rewrite sort_insert_perm in Hz.
      apply elem_of_cons in Hz as [->|Hz]; [lia|].
      rewrite Forall_forall in Hy. by apply Hy.
    + constructor; [by constructor|].
      constructor; [lia|]. eapply Forall_impl; [exact Hy|].
      simpl. lia.
Qed.

Lemma sort_sorted (l : list A) : StronglySorted later_first (sort by_key l).
Proof.
  induction l as [|x l IH]; [constructor|].
  by apply sort_insert_sorted.
Qed.

End Sorting.

Section Counting.

Lemma foldl_sum {A} (f : A → nat) (l : list A) (start : nat) :
  foldl (λ sum x, (sum + f x)%nat) start l = (start + sum_list_with f l)%nat.
Proof.
  revert start; induction l as [|x l IH]; intros start; simpl; [lia|].
  rewrite IH. lia.
Qed.

Lemma sumSessionEntries_alt (m : gmap Z TabHistory) :
  sumSessionEntries m
  = sum_list_with (λ kv, List.length (sessionHistory kv.2)) (map_to_list m).
Proof.
  unfold sumSessionEntries. rewrite foldl_sum. simpl.
  induction (map_to_list m) as [|kv l IH]; simpl; [done|]. by f_equal.
Qed.

Lemma sumSessionEntries_insert (m : gmap Z TabHistory) i th :
  m !! i = None →
  sumSessionEntries (<[i := th]> m)
  = (List.length (sessionHistory th) + sumSessionEntries m)%nat.
Proof.
  intros Hi. rewrite !sumSessionEntries_alt.
  by rewrite (map_to_list_insert m i th Hi).
Qed.

Lemma sumSessionEntries_delete (m : gmap Z TabHistory) i th :
  m !! i = Some th →
  (List.length (sessionHistory th) + sumSessionEntries (delete i m))%nat
  = sumSessionEntries m.
Proof.
  intros Hi. rewrite !sumSessionEntries_alt.
  by rewrite <- (map_to_list_delete m i th Hi).
Qed.

End Counting.

Section Queries.

Lemma getAllTabTrees_perm tr :
  getAllTabTrees tr
  ≡ₚ ((λ kv, treeDataOf tr false kv.1 kv.2) <$> map_to_list (tabHistories tr))
     ++ ((λ kv, treeDataOf tr true kv.1 kv.2)
           <$> map_to_list (closedTabHistories tr)).
Proof. apply (sort_perm td_lastUpdated). Qed.

Lemma getAllTabTrees_elem tr d :
  d ∈ getAllTabTrees tr ↔
  (∃ i th, tabHistories tr !! i = Some th ∧ d = treeDataOf tr false i th)
  ∨ (∃ i th, closedTabHistories tr !! i = Some th ∧ d = treeDataOf tr true i th).
Proof.
  rewrite getAllTabTrees_perm, elem_of_app, !list_elem_of_fmap.
  split.
  - intros [([i th] & -> & Hin)|([i th] & -> & Hin)];
      apply elem_of_map_to_list in Hin; eauto.
  - intros [(i & th & Hth & ->)|(i & th & Hth & ->)]; [left|right];
      exists (i, th); by rewrite elem_of_map_to_list.
Qed.

Lemma length_filter_all {A} (P : A → Prop) `{∀ x, Decision (P x)} (l : list A) :
  Forall P l → List.length (filter P l) = List.length l.
Proof.
  induction 1 as [|x l Hx Hl IH]; [done|].
  rewrite filter_cons_True by done. simpl. by rewrite IH.
Qed.

Lemma length_filter_none {A} (P : A → Prop) `{∀ x, Decision (P x)} (l : list A) :
  Forall (λ x, ¬ P x) l → List.length (filter P l) = 0%nat.
Proof.
  induction 1 as [|x l Hx Hl IH]; [done|].
  by rewrite filter_cons_False.
Qed.

Lemma sum_list_with_fmap {A B} (f : B → nat) (g : A → B) (l : list A) :
  sum_list_with f (g <$> l) = sum_list_with (f ∘ g) l.
Proof. induction l as [|x l IH]; simpl; [done|]. by f_equal. Qed.

(** X14.  The answer of [getAllTabTrees] has one element for each record
    of the active map, flagged open, and one for each record of the
    closed map, flagged closed, and nothing else; and it lists them
    from the most recently updated to the least. *)
Theorem tab_trees_complete_and_sorted tr :
  (∀ d, d ∈ getAllTabTrees tr ↔
     (∃ i th, tabHistories tr !! i = Some th ∧ d = treeDataOf tr false i th)
     ∨ (∃ i th, closedTabHistories tr !! i = Some th
                ∧ d = treeDataOf tr true i th))
  ∧ List.length (getAllTabTrees tr)
    = (size (tabHistories tr) + size (closedTabHistories tr))%nat
  ∧ StronglySorted (λ a b, td_lastUpdated b ≤ td_lastUpdated a)
      (getAllTabTrees tr).
Proof.
  split; [apply getAllTabTrees_elem|]. split.
  - rewrite getAllTabTrees_perm, length_app, !length_fmap.
    by rewrite !length_map_to_list.
  - apply (sort_sorted td_lastUpdated).
Qed.

(** X16.  The numbers that the popup computes from the list of
    [getAllTabTrees] are the numbers that ['getStatus'] reports: tabs,
    active tabs, closed tabs, entries. *)
Theorem popup_stats_agree_with_status tr :
  updateStats (getAllTabTrees tr)
  = {| ps_total := trackedTabs (getStatus tr);
       ps_active := activeTabs (getStatus tr);
       ps_closed := closedTabs (getStatus tr);
       ps_entries := totalSessionEntries (getStatus tr) |}.
Proof.
  unfold updateStats, getStatus. simpl.
  pose proof (getAllTabTrees_perm tr) as Hperm.
  f_equal.
  - rewrite Hperm, length_app, !length_fmap. by rewrite !length_map_to_list.
  - rewrite Hperm, filter_app, length_app.
    rewrite length_filter_all, length_filter_none; rewrite ?length_fmap.
    + rewrite length_map_to_list. lia.
    + apply Forall_fmap, Forall_forall. by intros.
    + apply Forall_fmap, Forall_forall. by intros.
  - rewrite Hperm, filter_app, length_app.
    rewrite length_filter_none, length_filter_all; rewrite ?length_fmap.
    + by rewrite length_map_to_list.
    + apply Forall_fmap, Forall_forall. by intros.
    + apply Forall_fmap, Forall_forall. by intros.
  - rewrite foldl_sum, Hperm, sum_list_with_app, !sum_list_with_fmap.
    by rewrite !sumSessionEntries_alt.
Qed.

(** X13.  Closing a tracked tab that has no closed record yet moves one tab
    from the active to the closed count of ['getStatus'] and changes
    neither the number of tracked tabs nor the number of entries. *)
Theorem status_after_close tr tabId th now :
  tabHistories tr !! tabId = Some th →
  closedTabHistories tr !! tabId = None →
  let before := getStatus tr in
  let after := getStatus (handleTabClose tr tabId now) in
  trackedTabs after = trackedTabs before
  ∧ S (activeTabs after) = activeTabs before
  ∧ closedTabs after = S (closedTabs before)
  ∧ totalSessionEntries after = totalSessionEntries before.
Proof.
  intros Hth Hclosed. unfold getStatus, handleTabClose. rewrite Hth. simpl.
  rewrite map_size_delete, Hth, map_size_insert, Hclosed. simpl.
  rewrite (sumSessionEntries_insert _ _ _ Hclosed). simpl.
  pose proof (sumSessionEntries_delete _ _ _ Hth) as Hsum.
  assert (0 < size (tabHistories tr))%nat.
  { destruct (decide (size (tabHistories tr) = 0%nat)) as [E|]; [|lia].
    apply map_size_empty_inv in E. by rewrite E, lookup_empty in Hth. }
  repeat split; lia.
Qed.

(** X15.  Once a tab is closed, its element in the list of
    [getAllTabTrees] is the closed record, with the entries it had, and
    the creation time it shows is the time of its last update: closing
    drops the recorded creation time. *)
Theorem closed_tab_shows_last_update_as_creation tr tabId th now k d :
  tabHistories tr !! tabId = Some th →
  getAllTabTrees (handleTabClose tr tabId now) !! k = Some d →
  td_tabId d = tabId →
  td_isClosed d = true
  ∧ td_sessionHistory d = sessionHistory th
  ∧ td_closedAt d = Some now
  ∧ td_creationTime d = lastUpdated th.
Proof.
  intros Hth Hd%list_elem_of_lookup_2 Hid. apply getAllTabTrees_elem in Hd.
  unfold handleTabClose in Hd. rewrite Hth in Hd. simpl in Hd.
  destruct Hd as [(i & th' & Hth' & ->)|(i & th' & Hth' & ->)];
    simpl in Hid; subst i.
  - by rewrite lookup_delete_eq in Hth'.
  - rewrite lookup_insert_eq in Hth'. injection Hth' as <-.
    unfold treeDataOf. simpl. by rewrite lookup_delete_eq.
Qed.

Lemma TreeNode_induction (P : TreeNode → Prop) :
  (∀ e cs lvl cur, Forall P cs → P (treeNode e cs lvl cur)) →
  ∀ t, P t.
Proof.
  intros Hnode. fix IH 1. intros [e cs lvl cur]. apply Hnode.
  induction cs as [|c cs IHcs]; constructor; [apply IH|exact IHcs].
Qed.

(** X19.  The debug view keeps every node: walked parents first, it shows
    the url, the level and the marker of the nodes of the tree, in the
    same order. *)
Theorem debug_view_keeps_nodes t :
  debugNodes (simplifyTreeForDebug t)
  = (λ x, (url (node_entry x), node_level x, node_isCurrent x)) <$> nodes t.
Proof.
  induction t as [e cs lvl cur IH] using TreeNode_induction. simpl. f_equal.
  induction IH as [|c cs Hc Hcs IHcs]; [done|].
  change (debugNodes (simplifyTreeForDebug c)
            ++ mjoin (debugNodes <$> (simplifyTreeForDebug <$> cs))
          = (λ x, (url (node_entry x), node_level x, node_isCurrent x))
              <$> (nodes c ++ mjoin (nodes <$> cs))).
  by rewrite fmap_app, Hc, IHcs.
Qed.

Lemma length_substring_0 (n : nat) (s : string) :
  String.length (String.substring 0 n s) = Nat.min n (String.length s).
Proof.
  revert n; induction s as [|c s IH]; intros [|n]; simpl; try done.
  by rewrite IH.
Qed.

Lemma prefix_substring_0 (n : nat) (s : string) :
  String.prefix (String.substring 0 n s) s = true.
Proof.
  revert n; induction s as [|c s IH]; intros [|n]; simpl; try done.
  destruct (Ascii.ascii_dec c c); [apply IH|done].
Qed.

(** X20.  [truncateUrl] returns a url that fits as it is; of a longer one
    it keeps the first [maxLength] code units (none for a negative
    [maxLength]) and puts three dots behind them. *)
Theorem truncateUrl_keeps_prefix u maxLength :
  (Z.of_nat (String.length u) ≤ maxLength → truncateUrl u maxLength = u)
  ∧ (maxLength < Z.of_nat (String.length u) →
     ∃ kept, truncateUrl u maxLength = String.append kept "..."
             ∧ String.length kept = Z.to_nat maxLength
             ∧ String.prefix kept u = true).
Proof.
  unfold truncateUrl.
  destruct (Z.leb_spec (Z.of_nat (String.length u)) maxLength); split;
    try lia; [done|].
  intros _. eexists. split; [done|]. split.
  - rewrite length_substring_0. lia.
  - apply prefix_substring_0.
Qed.

End Queries.

(** * Runs of events

    What holds of every tracker that a run of events leads to. *)

Section EventRuns.
Context `{Platform}.

Lemma runEvents_reachable evs : ∀ tr tr',
  reachable tr → runEvents tr evs = Some tr' → reachable tr'.
Proof.
  induction evs as [|ev rest IH]; intros tr tr' Hreach; simpl.
  - by intros [= <-].
  - destruct (handle tr ev) as [tr1|] eqn:Hstep; simpl; [|done].
    apply IH. by eapply reachable_step.
Qed.

(** What [updateTabHistory] does to the maps, for a tab that is tracked
    and for one that is not. *)
Lemma updateTabHistory_effect tr tabId u ttl ty historyInfo now :
  (∀ th, tabHistories tr !! tabId = Some th → valid_index th) →
  ∃ th',
    updateTabHistory tr tabId u ttl ty historyInfo now
    = Some (set_tabHistories (<[tabId := th']> (tabHistories tr)) tr)
    ∧ ((tabHistories tr !! tabId = None
        ∧ th' = newTabHistory tr tabId u ttl now)
       ∨ (∃ th root,
            tabHistories tr !! tabId = Some th
            ∧ rebuiltTree (logAfterUpdate th u ttl ty historyInfo now)
              = Some root
            ∧ th' = set_tree root
                      (set_lastUpdated now
                         (logAfterUpdate th u ttl ty historyInfo now)))).
Proof.
  intros Hvalid. destruct (tabHistories tr !! tabId) as [th|] eqn:Hth.
  - destruct (updateTabHistory_tracked tr tabId th u ttl ty historyInfo now
                Hth (Hvalid th eq_refl)) as (root & Hroot & ->).
    eexists. split; [done|]. right. eauto.
  - rewrite updateTabHistory_untracked by done.
    eexists. split; [done|]. by left.
Qed.

Section Keeps.
Variable Q : TabHistory → Prop.
Hypothesis Qnew : ∀ tr i u ttl t,
  isValidUrl (Some u) = true → Q (newTabHistory tr i u ttl t).
Hypothesis Qstep : ∀ th u ttl ty historyInfo t root,
  log_inv th → Q th → isValidUrl (Some u) = true →
  rebuiltTree (logAfterUpdate th u ttl ty historyInfo t) = Some root →
  Q (set_tree root (set_lastUpdated t (logAfterUpdate th u ttl ty historyInfo t))).
Hypothesis Qclose : ∀ th t,
  Q th →
  Q (mkTabHistory (sessionHistory th) (currentIndex th) (tree th)
       (lastUpdated th) true (Some t)).
Hypothesis Qbuild : ∀ th root,
  Q th → rebuiltTree th = Some root → Q (set_tree root th).

Lemma all_logs_insert tr tr' tabId th' :
  all_logs Q tr → Q th' →
  tabHistories tr' = <[tabId := th']> (tabHistories tr) →
  closedTabHistories tr' = closedTabHistories tr →
  all_logs Q tr'.
Proof.
  intros [Hact Hclosed] Hq Emap Eclosed. split.
  - intros i th. rewrite Emap. intros [[_ <-]|[_ Hth]]%lookup_insert_Some;
      [done|eauto].
  - intros i th. rewrite Eclosed. eauto.
Qed.

Lemma updateTabHistory_keeps_all tr tabId u ttl ty historyInfo now :
  tracker_inv tr → all_logs Q tr → isValidUrl (Some u) = true →
  ∃ tr', updateTabHistory tr tabId u ttl ty historyInfo now = Some tr'
         ∧ all_logs Q tr'.
Proof.
  intros Hinv Hall Hu.
  destruct (updateTabHistory_effect tr tabId u ttl ty historyInfo now)
    as (th' & -> & Hcase).
  { intros th Hth. apply (proj1 Hinv tabId th Hth). }
  eexists. split; [done|].
  apply (all_logs_insert tr _ tabId th' Hall); [|done..].
  destruct Hcase as [[_ ->]|(th & root & Hth & Hroot & ->)].
  - by apply Qnew.
  - apply Qstep; [apply (proj1 Hinv tabId th Hth)|apply (proj1 Hall tabId th Hth)
                  |done..].
Qed.

Lemma handle_keeps_all tr ev tr' :
  tracker_inv tr → all_logs Q tr → handle tr ev = Some tr' → all_logs Q tr'.
Proof.
  intros Hinv Hall.
  destruct ev as [tabId now|tabId tabUrl ttl now
    |tabId statusComplete tabUrl ttl historyInfo now
    |tabId tabUrl ttl historyInfo now|tabId now|action tabId]; simpl.
  - by intros [= <-].
  - assert (Hall0 : all_logs Q
              (if decide (is_Some (tabCreationTimes tr !! tabId)) then tr
               else handleTabCreated tr tabId now))
      by (by case_decide).
    destruct tabUrl as [u|]; [|by intros [= <-]].
    destruct (isValidUrl (Some u)) eqn:Hu; [|by intros [= <-]].
    intros [= <-]. unfold initializeTabHistory.
    set (tr0 := if decide _ then tr else _) in *.
    destruct (tabHistories tr0 !! tabId); [done|].
    eapply all_logs_insert; [exact Hall0| |done..]. by apply Qnew.
  - unfold handleTabUpdate. destruct tabUrl as [u|]; [|by intros [= <-]].
    destruct statusComplete; cbn [andb]; [|by intros [= <-]].
    destruct (isValidUrl (Some u)) eqn:Hu; [|by intros [= <-]].
    intros Hup.
    destruct (updateTabHistory_keeps_all tr tabId u ttl "navigation"
                historyInfo now Hinv Hall Hu) as (tr'' & Hup' & Hall').
    by simplify_eq.
  - unfold handleTabActivation. destruct tabUrl as [u|]; [|by intros [= <-]].
    destruct (isValidUrl (Some u)) eqn:Hu; [|by intros [= <-]].
    intros Hup.
    destruct (updateTabHistory_keeps_all tr tabId u ttl "activation"
                historyInfo now Hinv Hall Hu) as (tr'' & Hup' & Hall').
    by simplify_eq.
  - intros [= <-]. unfold handleTabClose.
    destruct (tabHistories tr !! tabId) as [th|] eqn:Hth; [|done].
    destruct Hall as [Hact Hclosed]. split; simpl.
    + intros i th' [_ Hth']%lookup_delete_Some. eauto.
    + intros i th' [[_ <-]|[_ Hth']]%lookup_insert_Some; [|eauto].
      apply Qclose, (Hact tabId th Hth).
  - unfold handleMessage.
    destruct (String.eqb action "clearHistory").
    { intros [= <-]. by split; intros i th; simpl; rewrite lookup_empty. }
    destruct (String.eqb action "clearClosedTabs").
    { intros [= <-]. destruct Hall as [Hact _].
      split; [done|]. intros i th. simpl. by rewrite lookup_empty. }
    destruct (String.eqb action "refreshTabHistory"); [|by intros [= <-]].
    destruct tabId as [t|]; [|by intros [= <-]].
    destruct (t =? 0); [by intros [= <-]|].
    destruct (tabHistories tr !! t) as [th|] eqn:Hth.
    + destruct (buildTreeFromSessionHistory_tracked tr t th Hth)
        as (root & Hroot & ->).
      * destruct (proj1 Hinv t th Hth) as [[Hlo Hhi] _].
        destruct (sessionHistory th); simpl in *; [lia|done].
      * intros [= <-].
        apply (all_logs_insert tr _ t (set_tree root th) Hall); [|done..].
        apply Qbuild; [apply (proj1 Hall t th Hth)|done].
    + unfold buildTreeFromSessionHistory. rewrite Hth. by intros [= <-].
Qed.

Lemma runEvents_keeps_all evs : ∀ tr tr',
  tracker_inv tr → all_logs Q tr → runEvents tr evs = Some tr' →
  all_logs Q tr'.
Proof.
  induction evs as [|ev rest IH]; intros tr tr' Hinv Hall; simpl.
  - by intros [= <-].
  - destruct (handle tr ev) as [tr1|] eqn:Hstep; simpl; [|done].
    destruct (handle_inv tr ev Hinv) as (tr1' & Hstep' & Hinv1).
    assert (tr1' = tr1) as -> by congruence.
    apply (IH tr1 tr' Hinv1). exact (handle_keeps_all tr ev tr1 Hinv Hall Hstep).
Qed.

End Keeps.

Lemma tracker_inv_empty : tracker_inv emptyTracker.
Proof. by split; intros i th; simpl; rewrite lookup_empty. Qed.

Lemma all_logs_empty Q : all_logs Q emptyTracker.
Proof. by split; intros i th; simpl; rewrite lookup_empty. Qed.

Lemma runEvents_inv evs : ∀ tr,
  tracker_inv tr →
  ∃ tr', runEvents tr evs = Some tr' ∧ tracker_inv tr'.
Proof.
  induction evs as [|ev rest IH]; intros tr Hinv; simpl; [eauto|].
  destruct (handle_inv tr ev Hinv) as (tr1 & -> & Hinv1). simpl.
  by apply IH.
Qed.

(** X3.  After any run of events, every log of the tracker, of an open tab
    or of a closed one, has its index within its entries and no two
    neighbouring entries of the same url. *)
Theorem logs_stay_well_formed evs tr :
  runEvents emptyTracker evs = Some tr →
  all_logs (λ th, valid_index th ∧ no_adjacent_dup (sessionHistory th)) tr.
Proof.
  intros Hrun.
  destruct (runEvents_inv evs emptyTracker tracker_inv_empty)
    as (tr' & Hrun' & Hinv).
  assert (tr' = tr) as -> by congruence. exact Hinv.
Qed.

(** X4.  No run of events makes a handler throw: whatever the events are,
    with whatever urls, flags and clocks, the run goes through. *)
Theorem handlers_never_throw evs : is_Some (runEvents emptyTracker evs).
Proof.
  destruct (runEvents_inv evs emptyTracker tracker_inv_empty)
    as (tr' & -> & _). eauto.
Qed.

Lemma coherent_keeps evs tr :
  runEvents emptyTracker evs = Some tr → all_logs coherent tr.
Proof.
  apply runEvents_keeps_all;
    [..|apply tracker_inv_empty|apply all_logs_empty].
  - intros. apply newTabHistory_rebuilt.
  - by intros.
  - by intros.
  - by intros.
Qed.

(** X5.  After any run of events, the tree kept with each log, open or
    closed, is the tree that a rebuild of that log gives. *)
Theorem tree_is_rebuild_of_log evs tr :
  runEvents emptyTracker evs = Some tr →
  all_logs (λ th, rebuiltTree th = Some (tree th)) tr.
Proof. apply coherent_keeps. Qed.

(** X6.  After any run of events, every entry of every log has a url that
    begins with [http:] or [https:]: pages of other schemes, and events
    without a url, never reach a log. *)
Theorem only_http_pages_logged evs tr :
  runEvents emptyTracker evs = Some tr →
  all_logs
    (λ th, Forall (λ e, startsWith (url e) "http:" = true
                        ∨ startsWith (url e) "https:" = true)
                  (sessionHistory th)) tr.
Proof.
  intros Hrun.
  assert (Hall : all_logs http_only tr).
  { revert Hrun. apply runEvents_keeps_all;
      [..|apply tracker_inv_empty|apply all_logs_empty].
    - intros tr0 i u ttl t Hu. by repeat constructor.
    - intros th u ttl ty historyInfo t root [[Hlo Hhi] _] Hq Hu _.
      unfold http_only, logAfterUpdate in *.
      repeat case_match; simpl; try done.
      apply Forall_app. split; [by apply Forall_take|by repeat constructor].
    - by intros.
    - by intros. }
  assert (Himpl : ∀ th, http_only th →
            Forall (λ e, startsWith (url e) "http:" = true
                         ∨ startsWith (url e) "https:" = true)
                   (sessionHistory th)).
  { intros th Hq. eapply Forall_impl; [exact Hq|]. intros e He. simpl in He.
    apply andb_prop in He as [_ He]. by apply orb_prop in He. }
  destruct Hall as [Hact Hclosed]. split; intros i th Hth; apply Himpl; eauto.
Qed.

(** X7.  After any run of events, every log begins with an entry of type
    ['initial']: the first entry is never dropped, and it is made as an
    initial entry whatever event brought the tab in. *)
Theorem log_starts_with_initial_entry evs tr :
  runEvents emptyTracker evs = Some tr →
  all_logs (λ th, ∃ e, head (sessionHistory th) = Some e ∧ type e = "initial")
    tr.
Proof.
  apply (runEvents_keeps_all starts_initial);
    [..|apply tracker_inv_empty|apply all_logs_empty].
  - intros. by eexists.
  - intros th u ttl ty historyInfo t root [[Hlo Hhi] _] (e & He & Hty) _ _.
    unfold starts_initial, logAfterUpdate in *.
    repeat case_match; simpl; eauto.
    exists e. split; [|done].
    destruct (sessionHistory th); simpl in *; [done|]. done.
  - by intros.
  - by intros.
Qed.

(** X8.  After any run of events the command ['refreshTabHistory'] changes
    nothing, for a tracked tab, an untracked one, or none: the tree it
    rebuilds is the tree that is there. *)
Theorem refresh_changes_nothing evs tr tabId :
  runEvents emptyTracker evs = Some tr →
  handleMessage tr "refreshTabHistory" tabId = Some tr.
Proof.
  intros Hrun. unfold handleMessage. simpl.
  destruct tabId as [t|]; [|done]. destruct (t =? 0); [done|].
  unfold buildTreeFromSessionHistory.
  destruct (tabHistories tr !! t) as [th|] eqn:Hth; [|done].
  pose proof (proj1 (coherent_keeps evs tr Hrun) t th Hth) as Hco.
  unfold coherent, rebuiltTree in Hco.
  destruct (sessionHistory th) as [|e rest] eqn:Hlog; [done|].
  rewrite Hco. simpl. f_equal.
  assert (set_tree (tree th) th = th) as -> by (by destruct th).
  rewrite insert_id by done. by destruct tr.
Qed.

End EventRuns.

(** * Single steps of the tracker *)

Section Steps.
Context `{Platform}.

(** X9.  After an update, the entry at the index of the tab's log is an
    entry of the update's url, whether the update was taken as a back
    step, a forward step, a refresh, a new navigation, or was the first
    of its tab. *)
Theorem update_lands_on_url tr tabId u ttl ty historyInfo now :
  (∀ th, tabHistories tr !! tabId = Some th → valid_index th) →
  ∃ tr' th' e,
    updateTabHistory tr tabId u ttl ty historyInfo now = Some tr'
    ∧ tabHistories tr' !! tabId = Some th'
    ∧ index (sessionHistory th') (currentIndex th') = Some e
    ∧ url e = u.
Proof.
  intros Hvalid.
  destruct (updateTabHistory_effect tr tabId u ttl ty historyInfo now Hvalid)
    as (th' & -> & Hcase).
  assert (Hat : url_at (sessionHistory th') (currentIndex th') u = true).
  { destruct Hcase as [[_ ->]|(th & root & Hth & _ & ->)].
    - unfold url_at. simpl. apply String.eqb_refl.
    - simpl. specialize (Hvalid th Hth). destruct Hvalid as [Hlo Hhi].
      unfold logAfterUpdate.
      destruct (spec_Back th u historyInfo) eqn:Hback.
      { unfold spec_Back in Hback. simpl.
        by apply andb_prop in Hback as [[_ ?]%andb_prop _]. }
      destruct (spec_Forward th u historyInfo) eqn:Hfwd.
      { unfold spec_Forward in Hfwd. simpl.
        by apply andb_prop in Hfwd as [[_ ?]%andb_prop _]. }
      destruct (spec_Refresh th u) eqn:Hrefresh; [done|]. simpl.
      unfold url_at.
      replace (Z.of_nat (List.length (take (S (Z.to_nat (currentIndex th)))
                 (sessionHistory th)
               ++ [createHistoryEntry u ttl ty now historyInfo now])) - 1)
        with (Z.of_nat (List.length (take (S (Z.to_nat (currentIndex th)))
                 (sessionHistory th))))
        by (rewrite length_app; simpl; lia).
      rewrite index_nat, list_lookup_middle by done. simpl.
      apply String.eqb_refl. }
  unfold url_at in Hat.
  destruct (index (sessionHistory th') (currentIndex th')) as [e|] eqn:He;
    [|done].
  eexists _, th', e. split; [done|]. split; [apply lookup_insert_eq|].
  split; [done|]. by apply String.eqb_eq.
Qed.

(** X10.  A back step and a forward step move the index by one and leave
    the entries as they are; the back step is taken whenever the entry
    before the current one has the update's url and [canGoBack] is set,
    whatever else the update matches. *)
Theorem back_and_forward_only_move_the_index tr tabId th u ttl ty
    historyInfo now :
  tabHistories tr !! tabId = Some th →
  valid_index th →
  spec_Back th u historyInfo = true
  ∨ spec_Forward th u historyInfo = true →
  ∃ tr' th',
    updateTabHistory tr tabId u ttl ty historyInfo now = Some tr'
    ∧ tabHistories tr' !! tabId = Some th'
    ∧ sessionHistory th' = sessionHistory th
    ∧ currentIndex th'
      = if spec_Back th u historyInfo then currentIndex th - 1
        else currentIndex th + 1.
Proof.
  intros Hth Hvalid Hmove.
  destruct (updateTabHistory_tracked tr tabId th u ttl ty historyInfo now
              Hth Hvalid) as (root & _ & ->).
  eexists _, _. split; [done|]. split; [apply lookup_insert_eq|].
  unfold logAfterUpdate.
  destruct (spec_Back th u historyInfo); [done|].
  destruct Hmove as [Hb|Hf]; [done|]. by rewrite Hf.
Qed.

(** X11.  The first update of a tab makes a log of one entry of type
    ['initial'], stamped with the time at which [handleTabCreated] saw
    the tab; the kind and the navigation info of the update are not
    used for it. *)
Theorem first_entry_keeps_creation_time tr tabId created u ttl ty
    historyInfo now :
  tabHistories tr !! tabId = None →
  created ≠ 0 →
  ∃ tr' th' e,
    updateTabHistory (handleTabCreated tr tabId created) tabId u ttl ty
      historyInfo now = Some tr'
    ∧ tabHistories tr' !! tabId = Some th'
    ∧ sessionHistory th' = [e] ∧ currentIndex th' = 0
    ∧ url e = u ∧ type e = "initial" ∧ timestamp e = created
    ∧ historyLength e = 1 ∧ canGoBack e = false ∧ canGoForward e = false.
Proof.
  intros Hnone Hcreated.
  rewrite updateTabHistory_untracked by done.
  eexists _, _, _. split; [done|]. split; [apply lookup_insert_eq|].
  simpl. split; [done|]. repeat split.
  unfold creationTimeOf. simpl. rewrite lookup_insert_eq. simpl.
  destruct (Z.eqb_spec created 0); [done|].
  by destruct (Z.eqb_spec created 0).
Qed.

(** X12.  An update for the id of a tab that was closed starts a new log of
    one entry, stamped with the time of the update; the closed record
    stays in the closed map with the entries it had. *)
Theorem reopened_tab_starts_new_log tr tabId th closing u ttl ty
    historyInfo now :
  tabHistories tr !! tabId = Some th →
  ∃ tr' fresh closed,
    updateTabHistory (handleTabClose tr tabId closing) tabId u ttl ty
      historyInfo now = Some tr'
    ∧ tabHistories tr' !! tabId = Some fresh
    ∧ sessionHistory fresh
      = [createHistoryEntry u ttl "initial" now emptyInfo now]
    ∧ currentIndex fresh = 0
    ∧ closedTabHistories tr' !! tabId = Some closed
    ∧ sessionHistory closed = sessionHistory th
    ∧ currentIndex closed = currentIndex th
    ∧ closedAt closed = Some closing.
Proof.
  intros Hth.
  assert (Hnone : tabHistories (handleTabClose tr tabId closing) !! tabId = None).
  { unfold handleTabClose. rewrite Hth. simpl. apply lookup_delete_eq. }
  rewrite updateTabHistory_untracked by done.
  eexists _, _, _. split; [done|]. split; [apply lookup_insert_eq|].
  unfold handleTabClose. rewrite Hth. simpl.
  unfold creationTimeOf. simpl. rewrite lookup_delete_eq. simpl.
  split; [done|]. split; [done|]. split; [apply lookup_insert_eq|]. done.
Qed.

(** X21.  In the earlier variant of the tracker, closing a tab takes
    its log away for good: no record of the tab is left, nothing is
    added to any other map, and ['getStatus'] counts one tab less and as
    many entries less as the log had. *)
Theorem variant_close_loses_the_log tr tabId th :
  tabHistories tr !! tabId = Some th →
  let after := Variant.handleTabClose tr tabId in
  tabHistories after !! tabId = None
  ∧ closedTabHistories after = closedTabHistories tr
  ∧ S (variantStatus after).1 = (variantStatus tr).1
  ∧ ((variantStatus after).2 + List.length (sessionHistory th))%nat
    = (variantStatus tr).2.
Proof.
  intros Hth. unfold Variant.handleTabClose, variantStatus. simpl.
  rewrite map_size_delete, Hth. simpl.
  pose proof (sumSessionEntries_delete _ _ _ Hth) as Hsum.
  assert (0 < size (tabHistories tr))%nat.
  { destruct (decide (size (tabHistories tr) = 0%nat)) as [E|]; [|lia].
    apply map_size_empty_inv in E. by rewrite E, lookup_empty in Hth. }
  rewrite lookup_delete_eq. repeat split; lia.
Qed.

(** X1.  The tree that a rebuild assigns never has two nodes marked
    current, whatever the log and the index are. *)
Theorem rebuilt_tree_has_at_most_one_current tr tabId th :
  tabHistories tr !! tabId = Some th →
  sessionHistory th ≠ [] →
  ∃ tr' th',
    buildTreeFromSessionHistory tr tabId = Some tr'
    ∧ tabHistories tr' !! tabId = Some th'
    ∧ (List.length (currentNodes (tree th')) ≤ 1)%nat.
Proof.
  intros Hth Hne.
  destruct (buildTreeFromSessionHistory_tracked tr tabId th Hth Hne)
    as (root & Hroot & ->).
  eexists _, _. split; [done|]. split; [apply lookup_insert_eq|]. simpl.
  unfold rebuiltTree in Hroot.
  destruct (sessionHistory th) as [|e rest]; [done|].
  destruct (at_most_one_current_node e rest (currentIndex th))
    as (root' & Hroot' & Hle).
  by simplify_eq.
Qed.

(** X2.  When the index points at the last entry of the log, as it does
    after every new navigation, the tree that a rebuild assigns has
    exactly one node marked current, and it is a node of that entry's
    url. *)
Theorem rebuilt_tree_marks_the_last_entry tr tabId th :
  tabHistories tr !! tabId = Some th →
  sessionHistory th ≠ [] →
  currentIndex th = Z.of_nat (List.length (sessionHistory th)) - 1 →
  ∃ tr' th' x e,
    buildTreeFromSessionHistory tr tabId = Some tr'
    ∧ tabHistories tr' !! tabId = Some th'
    ∧ currentNodes (tree th') = [x]
    ∧ last (sessionHistory th) = Some e
    ∧ url (node_entry x) = url e.
Proof.
  intros Hth Hne Hcur.
  destruct (buildTreeFromSessionHistory_tracked tr tabId th Hth Hne)
    as (root & Hroot & ->).
  unfold rebuiltTree in Hroot.
  destruct (sessionHistory th) as [|e rest] eqn:Hlog; [done|].
  destruct (last_entry_is_current e rest) as (root' & x & Hroot' & Hx & Hurl).
  assert (Hidx : currentIndex th = Z.of_nat (List.length rest))
    by (simpl in Hcur; lia).
  rewrite Hidx in Hroot. assert (root' = root) as -> by congruence.
  destruct (last (e :: rest)) as [l|] eqn:Hlast; [|done].
  eexists _, _, x, l. split; [done|]. split; [apply lookup_insert_eq|].
  simpl. split; [done|]. split; [done|]. simpl in Hurl. congruence.
Qed.

Lemma mapOfEntries_to_list {A} (m : gmap Z A) :
  mapOfEntries (Some (map_to_list m)) = m.
Proof.
  unfold mapOfEntries. simpl.
  assert (Hfold : ∀ l : list (Z * A),
            foldl (λ acc kv, <[kv.1 := kv.2]> acc) (∅ : gmap Z A) l
            = list_to_map (reverse l)).
  { induction l as [|kv l IH] using rev_ind; [done|].
    rewrite foldl_app, reverse_snoc. simpl. rewrite IH. by destruct kv. }
  rewrite Hfold.
  rewrite <- (list_to_map_to_list m) at 2.
  apply list_to_map_proper.
  - rewrite fmap_reverse, reverse_Permutation. apply NoDup_fst_map_to_list.
  - apply reverse_Permutation.
Qed.

Lemma rebuildAll_coherent tabIds : ∀ tr,
  (∀ i th, tabHistories tr !! i = Some th → coherent th) →
  rebuildAll tabIds tr = tr.
Proof.
  induction tabIds as [|t rest IH]; intros tr Hco; simpl; [done|].
  assert (Hbuild : buildTreeFromSessionHistory tr t = Some tr).
  { unfold buildTreeFromSessionHistory.
    destruct (tabHistories tr !! t) as [th|] eqn:Hth; [|done].
    specialize (Hco t th Hth). unfold coherent, rebuiltTree in Hco.
    destruct (sessionHistory th) as [|e l] eqn:Hlog; [done|].
    rewrite Hco. simpl. f_equal.
    assert (set_tree (tree th) th = th) as -> by (by destruct th).
    rewrite insert_id by done. by destruct tr. }
  rewrite Hbuild. by apply IH.
Qed.

(** X17.  A snapshot restores the tracker it was saved from: after any run
    of events, loading what [saveToStorage] wrote gives back the three
    maps as they were, trees included, whatever the tracker held
    before the load. *)
Theorem snapshot_round_trip evs tr now tr0 :
  runEvents emptyTracker evs = Some tr →
  loadStoredData (Some (saveToStorage tr now)) tr0 = tr.
Proof.
  intros Hrun. unfold loadStoredData, saveToStorage. simpl.
  rewrite !mapOfEntries_to_list.
  rewrite rebuildAll_coherent; [by destruct tr|].
  simpl. intros i th Hth. by apply (proj1 (coherent_keeps evs tr Hrun) i th).
Qed.

End Steps.

(** * Loading a snapshot *)

Section Loading.

(** Two trackers with the same logs, up to the trees. *)
Local Abbreviation same_log th th' :=
  (sessionHistory th' = sessionHistory th
   ∧ currentIndex th' = currentIndex th
   ∧ lastUpdated th' = lastUpdated th
   ∧ isClosed th' = isClosed th
   ∧ closedAt th' = closedAt th).

Lemma rebuildAll_effect tabIds : ∀ tr,
  closedTabHistories (rebuildAll tabIds tr) = closedTabHistories tr
  ∧ tabCreationTimes (rebuildAll tabIds tr) = tabCreationTimes tr
  ∧ ∀ i th',
      tabHistories (rebuildAll tabIds tr) !! i = Some th' →
      ∃ th, tabHistories tr !! i = Some th ∧ same_log th th'
            ∧ ((i ∈ tabIds ∨ coherent th) → sessionHistory th ≠ [] →
               coherent th').
Proof.
  induction tabIds as [|t rest IH]; intros tr; simpl.
  - split; [done|]. split; [done|]. intros i th' Hth'. exists th'.
    split; [done|]. split; [done|]. intros [Hin|Hco] _; [|done].
    by apply elem_of_nil in Hin.
  - destruct (tabHistories tr !! t) as [th|] eqn:Hth.
    + destruct (decide (sessionHistory th = [])) as [Hempty|Hne].
      * assert (Hbuild : buildTreeFromSessionHistory tr t = Some tr)
          by (unfold buildTreeFromSessionHistory; by rewrite Hth, Hempty).
        rewrite Hbuild. destruct (IH tr) as (Hc & Ht & Hlogs).
        split; [done|]. split; [done|]. intros i th' Hth'.
        destruct (Hlogs i th' Hth') as (th0 & Hth0 & Hsame & Hco).
        exists th0. split; [done|]. split; [done|].
        intros [Hin|Hc0] Hne0; [|by apply Hco; [right|]].
        apply elem_of_cons in Hin as [->|Hin]; [|by apply Hco; [left|]].
        by simplify_eq.
      * destruct (buildTreeFromSessionHistory_tracked tr t th Hth Hne)
          as (root & Hroot & ->).
        set (tr1 := set_tabHistories _ tr).
        destruct (IH tr1) as (Hc & Ht & Hlogs).
        split; [done|]. split; [done|]. intros i th' Hth'.
        destruct (Hlogs i th' Hth') as (th1 & Hth1 & Hsame & Hco).
        unfold tr1 in Hth1. simpl in Hth1.
        apply lookup_insert_Some in Hth1 as [[<- <-]|[Hne1 Hth1]].
        -- exists th. split; [done|]. split; [done|]. intros _ _.
           apply Hco; [right; exact Hroot|done].
        -- exists th1. split; [done|]. split; [done|].
           intros [Hin|Hc1] Hne0; [|by apply Hco; [right|]].
           apply elem_of_cons in Hin as [->|Hin]; [done|].
           by apply Hco; [left|].
    + assert (Hbuild : buildTreeFromSessionHistory tr t = Some tr)
        by (unfold buildTreeFromSessionHistory; by rewrite Hth).
      rewrite Hbuild. destruct (IH tr) as (Hc & Ht & Hlogs).
      split; [done|]. split; [done|]. intros i th' Hth'.
      destruct (Hlogs i th' Hth') as (th0 & Hth0 & Hsame & Hco).
      exists th0. split; [done|]. split; [done|].
      intros [Hin|Hc0] Hne0; [|by apply Hco; [right|]].
      apply elem_of_cons in Hin as [->|Hin]; [congruence|].
      by apply Hco; [left|].
Qed.

(** X18.  Loading a snapshot, whatever it holds, takes the logs of the
    active tabs as they are stored and gives each one that has entries
    the tree that a rebuild makes of it; the closed records and the
    creation times are taken as they are stored, trees included. *)
Theorem load_rebuilds_active_trees data tr0 :
  let loaded := loadStoredData (Some data) tr0 in
  closedTabHistories loaded = mapOfEntries (snap_closedTabHistories data)
  ∧ tabCreationTimes loaded = mapOfEntries (snap_tabCreationTimes data)
  ∧ ∀ i th',
      tabHistories loaded !! i = Some th' →
      ∃ th, mapOfEntries (snap_tabHistories data) !! i = Some th
            ∧ sessionHistory th' = sessionHistory th
            ∧ currentIndex th' = currentIndex th
            ∧ lastUpdated th' = lastUpdated th
            ∧ (sessionHistory th ≠ [] → rebuiltTree th' = Some (tree th')).
Proof.
  simpl. unfold loadStoredData.
  set (tr1 := mkTracker _ _ _).
  destruct (rebuildAll_effect ((map_to_list (tabHistories tr1)).*1) tr1)
    as (Hc & Ht & Hlogs).
  split; [done|]. split; [done|]. intros i th' Hth'.
  destruct (Hlogs i th' Hth') as (th & Hth & (Hs & Hi & Hl & _) & Hco).
  exists th. split; [done|]. repeat (split; [done|]).
  intros Hne. apply Hco; [|done]. left.
  apply list_elem_of_fmap. exists (i, th). split; [done|].
  by apply elem_of_map_to_list.
Qed.

End Loading.

(** * The further properties on the session *)

Section OnSession.
Import Sample Session.
Local Existing Instance browser.

Lemma status_after_close_witness :
  let before := getStatus open in
  let after := getStatus (handleTabClose open 7 80) in
  trackedTabs after = trackedTabs before
  ∧ S (activeTabs after) = activeTabs before
  ∧ closedTabs after = S (closedTabs before)
  ∧ totalSessionEntries after = totalSessionEntries before.
Proof.
  apply (status_after_close open 7 log7 80).
  - vm_compute. reflexivity.
  - vm_compute. reflexivity.
Defined.

Lemma closed_tab_shows_last_update_as_creation_witness :
  let d := treeDataOf final true 7
             (mkTabHistory (sessionHistory log7) (currentIndex log7)
                (tree log7) (lastUpdated log7) true (Some 80)) in
  td_isClosed d = true
  ∧ td_sessionHistory d = sessionHistory log7
  ∧ td_closedAt d = Some 80
  ∧ td_creationTime d = lastUpdated log7.
Proof.
  apply (closed_tab_shows_last_update_as_creation open 7 log7 80 1).
  - vm_compute. reflexivity.
  - vm_compute. reflexivity.
  - reflexivity.
Defined.

Lemma logs_stay_well_formed_witness :
  all_logs (λ th, valid_index th ∧ no_adjacent_dup (sessionHistory th)) final.
Proof.
  apply (logs_stay_well_formed events final). vm_compute. reflexivity.
Defined.

Lemma tree_is_rebuild_of_log_witness :
  all_logs (λ th, rebuiltTree th = Some (tree th)) final.
Proof.
  apply (tree_is_rebuild_of_log events final). vm_compute. reflexivity.
Defined.

Lemma only_http_pages_logged_witness :
  all_logs
    (λ th, Forall (λ e, startsWith (url e) "http:" = true
                        ∨ startsWith (url e) "https:" = true)
                  (sessionHistory th)) final.
Proof.
  apply (only_http_pages_logged events final). vm_compute. reflexivity.
Defined.

Lemma log_starts_with_initial_entry_witness :
  all_logs (λ th, ∃ e, head (sessionHistory th) = Some e ∧ type e = "initial")
    final.
Proof.
  apply (log_starts_with_initial_entry events final). vm_compute. reflexivity.
Defined.

Lemma refresh_changes_nothing_witness :
  handleMessage final "refreshTabHistory" (Some 8) = Some final.
Proof.
  apply (refresh_changes_nothing events final (Some 8)). vm_compute. reflexivity.
Defined.

Lemma snapshot_round_trip_witness :
  loadStoredData (Some (saveToStorage final 90)) emptyTracker = final.
Proof.
  apply (snapshot_round_trip events final 90 emptyTracker).
  vm_compute. reflexivity.
Defined.

Lemma update_lands_on_url_witness :
  ∃ tr' th' e,
    updateTabHistory open 7 urlB (Some "B") "navigation" (report 3) 70 = Some tr'
    ∧ tabHistories tr' !! 7 = Some th'
    ∧ index (sessionHistory th') (currentIndex th') = Some e
    ∧ url e = urlB.
Proof.
  apply (update_lands_on_url open 7 urlB (Some "B") "navigation" (report 3) 70).
  intros th Hth. vm_compute in Hth. injection Hth as <-.
  unfold valid_index. simpl. lia.
Defined.

Lemma back_and_forward_only_move_the_index_witness :
  ∃ tr' th',
    updateTabHistory (tracking [A; B; C] 2) tab urlB None "navigation" info 60
      = Some tr'
    ∧ tabHistories tr' !! tab = Some th'
    ∧ sessionHistory th' = [A; B; C]
    ∧ currentIndex th' = 2 - 1.
Proof.
  apply (back_and_forward_only_move_the_index (tracking [A; B; C] 2) tab
           (record [A; B; C] 2) urlB None "navigation" info 60).
  - reflexivity.
  - unfold valid_index. simpl. lia.
  - left. reflexivity.
Defined.

Lemma first_entry_keeps_creation_time_witness :
  ∃ tr' th' e,
    updateTabHistory (handleTabCreated emptyTracker 7 5) 7 urlA (Some "A")
      "navigation" (report 4) 10 = Some tr'
    ∧ tabHistories tr' !! 7 = Some th'
    ∧ sessionHistory th' = [e] ∧ currentIndex th' = 0
    ∧ url e = urlA ∧ type e = "initial" ∧ timestamp e = 5
    ∧ historyLength e = 1 ∧ canGoBack e = false ∧ canGoForward e = false.
Proof.
  apply (first_entry_keeps_creation_time emptyTracker 7 5 urlA (Some "A")
           "navigation" (report 4) 10).
  - reflexivity.
  - lia.
Defined.

Lemma reopened_tab_starts_new_log_witness :
  ∃ tr' fresh closed,
    updateTabHistory (handleTabClose open 7 80) 7 urlC None "activation"
      (report 1) 90 = Some tr'
    ∧ tabHistories tr' !! 7 = Some fresh
    ∧ sessionHistory fresh
      = [createHistoryEntry urlC None "initial" 90 emptyInfo 90]
    ∧ currentIndex fresh = 0
    ∧ closedTabHistories tr' !! 7 = Some closed
    ∧ sessionHistory closed = sessionHistory log7
    ∧ currentIndex closed = currentIndex log7
    ∧ closedAt closed = Some 80.
Proof.
  apply (reopened_tab_starts_new_log open 7 log7 80 urlC None "activation"
           (report 1) 90).
  vm_compute. reflexivity.
Defined.

Lemma variant_close_loses_the_log_witness :
  let tr := tracking [A; B; C] 1 in
  let after := Variant.handleTabClose tr tab in
  tabHistories after !! tab = None
  ∧ closedTabHistories after = closedTabHistories tr
  ∧ S (variantStatus after).1 = (variantStatus tr).1
  ∧ ((variantStatus after).2 + 3)%nat = (variantStatus tr).2.
Proof.
  apply (variant_close_loses_the_log (tracking [A; B; C] 1) tab
           (record [A; B; C] 1)).
  reflexivity.
Defined.

Lemma rebuilt_tree_has_at_most_one_current_witness :
  ∃ tr' th',
    buildTreeFromSessionHistory (tracking [A; B; C; A'] 0) tab = Some tr'
    ∧ tabHistories tr' !! tab = Some th'
    ∧ (List.length (currentNodes (tree th')) ≤ 1)%nat.
Proof.
  apply (rebuilt_tree_has_at_most_one_current (tracking [A; B; C; A'] 0) tab
           (record [A; B; C; A'] 0)).
  - reflexivity.
  - discriminate.
Defined.

Lemma rebuilt_tree_marks_the_last_entry_witness :
  ∃ tr' th' x e,
    buildTreeFromSessionHistory (tracking [A; B; C; A'] 3) tab = Some tr'
    ∧ tabHistories tr' !! tab = Some th'
    ∧ currentNodes (tree th') = [x]
    ∧ last [A; B; C; A'] = Some e
    ∧ url (node_entry x) = url e.
Proof.
  apply (rebuilt_tree_marks_the_last_entry (tracking [A; B; C; A'] 3) tab
           (record [A; B; C; A'] 3)).
  - reflexivity.
  - discriminate.
  - reflexivity.
Defined.

End OnSession.
